(** * remix-polyglot: the client-side translation loader

    A shallow embedding of [src/client.tsx]: the promise caches of [load],
    the lookup store of [usePolyglot] / [loadPhrases], and the route hooks
    patched by [Handoff].

    JavaScript runs these functions on one thread.  An [async] function runs
    synchronously up to its first [await]; what follows the [await] is a
    continuation that the event loop runs later.  The embedding makes the
    event loop explicit: a state holds the two cache tables, the promise
    objects, the HTTP requests in flight, the continuations waiting on a
    promise and the microtask queue, and every event (a call, an HTTP
    response, a microtask) is a total function on states.

    The tables that [load] reads with [obj[key]] ([manifest],
    [caches.indexes], a loaded index) are plain objects: a read finds the
    object's own property or, failing that, the member of
    [Object.prototype] of that name.  What those built-in members are like
    inside (the properties they have, how they print) is the engine's
    business and is a parameter of the embedding, [Realm]. *)

From Stdlib Require Import ZArith Lia Ascii String.
From stdpp Require Import base option strings list gmap fin_maps pretty.

Open Scope string_scope.

(** ** JavaScript values used by the client *)

Module Js.

(** An [Error] object: [err.name] and [err.message]. *)
Record Error := mkError { name : string; message : string }.

(** [new Error(msg)] *)
Definition new_Error (msg : string) : Error := mkError "Error" msg.

(** [err instanceof Error && err.name === 'AbortError'] *)
Definition is_abort (e : Error) : bool := bool_decide (name e = "AbortError").

(** The result of [JSON.parse]. *)
#[warnings="-register-all"]
Inductive json :=
| JNull
| JBool (b : bool)
| JNumber (n : Z)
| JString (s : string)
| JArray (items : list json)
| JObject (fields : list (string * json)).

(** The state of a promise object. *)
Inductive promise (A : Type) :=
| Pending
| Resolved (v : A)
| Rejected (e : Error).
Arguments Pending {A}.
Arguments Resolved {A} v.
Arguments Rejected {A} e.

Definition settled {A} (p : promise A) : bool :=
  match p with Pending => false | _ => true end.

(** Truthiness of a string: only the empty string is falsy. *)
Definition truthy (s : string) : bool := negb (bool_decide (s = "")).

(** The names of the members of [Object.prototype], which every plain
    object inherits (ECMAScript 20.1.3 and B.2.2; an unmodified prototype). *)
Definition inherited_names : list string :=
  ["constructor"; "__defineGetter__"; "__defineSetter__"; "hasOwnProperty";
   "__lookupGetter__"; "__lookupSetter__"; "isPrototypeOf";
   "propertyIsEnumerable"; "toString"; "valueOf"; "__proto__";
   "toLocaleString"].

Definition inherited (key : string) : bool :=
  bool_decide (key ∈ inherited_names).

(** What [obj[key]] gives on a plain object whose own properties are
    strings: the own property, else the member of [Object.prototype] of
    that name (a function, or the prototype itself for ['__proto__']), else
    [undefined]. *)
Inductive Value :=
| VOwn (s : string)
| VInherited (name : string)
| VUndefined.

(** [obj[key]]; the finite map holds the own properties of [obj]. *)
Definition read (obj : gmap string string) (key : string) : Value :=
  match obj !! key with
  | Some s => VOwn s
  | None => if inherited key then VInherited key else VUndefined
  end.

(** Truthiness: of strings only the empty one is falsy, the members of
    [Object.prototype] are objects, [undefined] is falsy. *)
Definition truthy_value (v : Value) : bool :=
  match v with
  | VOwn s => truthy s
  | VInherited _ => true
  | VUndefined => false
  end.

(** Truthiness of [obj[key]]. *)
Definition truthy_at (obj : gmap string string) (key : string) : bool :=
  truthy_value (read obj key).

(** What [member[property]] gives on a member of [Object.prototype]: the
    read throws (a poisoned accessor such as [caller]), or gives a falsy
    value, or a truthy one, kept as the text a template literal makes of
    it. *)
Inductive Lookup :=
| LThrows (e : Error)
| LFalsy
| LTruthy (text : string).

(** The built-in objects of the engine, as far as [load] can reach them:
    [shown name] is [String(Object.prototype[name])] (the text of a built-in
    function is implementation-defined) and [read_member name property] is
    [Object.prototype[name][property]]. *)
Class Realm := {
  shown : string → string;
  read_member : string → string → Lookup
}.

(** [`${v}`] *)
Definition to_string `{!Realm} (v : Value) : string :=
  match v with
  | VOwn s => s
  | VInherited name => shown name
  | VUndefined => "undefined"
  end.

(** [String(status)[0] === '2'] for a numeric status. *)
Definition status_is_2 (status : N) : bool :=
  match pretty status with
  | String c _ => bool_decide (c = "2"%char)
  | EmptyString => false
  end.

(** [Object.fromEntries(entries)]: a later entry with the same key wins. *)
Definition fromEntries {V} (entries : list (string * V)) : gmap string V :=
  foldl (fun acc kv => <[kv.1 := kv.2]> acc) ∅ entries.

(** [{ ...a, ...b }]: the properties of [a], overwritten by those of [b]. *)
Definition spread {V} (a b : gmap string V) : gmap string V := b ∪ a.

End Js.

(** ** Helpers imported from [./common] *)

Module Common.
Import Js.

(** Modelled from the spec: [isRecord] of [./common] is not among the
    sources; a Phrase Set body "must be a JSON object (not
    array/primitive)". *)
Definition isRecord (v : json) : bool :=
  match v with JObject _ => true | _ => false end.

Definition as_string (v : json) : option string :=
  match v with JString s => Some s | _ => None end.

(** Modelled from the spec: [isRecordOfStrings] of [./common] is not among
    the sources; an Index body "must be a flat string→string mapping".  The
    result is the checked record, [None] when the check fails. *)
Definition isRecordOfStrings (v : json) : option (gmap string string) :=
  match v with
  | JObject fields =>
      fromEntries <$> mapM (fun kv => pair kv.1 <$> as_string kv.2) fields
  | _ => None
  end.

End Common.

(** ** [load] and its two promise caches *)

Module Loader.
Import Js Common.

(** [`${locale}-${namespace}`], the key of the phrase cache and of the
    lookup store. *)
Definition key (locale namespace : string) : string :=
  locale ++ "-" ++ namespace.

(** The arguments of one call of [load]; [signal] is the identity of the
    caller's [AbortSignal], [None] when the caller passes none. *)
Record Args := {
  namespace : string;
  manifest : gmap string string;
  locale : string;
  baseUrl : string;
  signal : option nat
}.

(** One [fetch(url, { signal })]. *)
Record Request := { url : string; req_signal : option nat }.

(** A promise made by [new Promise(async (resolve, reject) => ...)] in
    [load].  Its executor issues one GET at once and settles the promise
    when the exchange is over; the record keeps the promise's state, that
    GET, and the variables the executor closes over. *)
Record IndexJob := {
  i_state : promise (gmap string string);
  i_request : Request;
  i_locale : string
}.

Record PhraseJob := {
  p_state : promise json;
  p_request : Request;
  p_locale : string;
  p_namespace : string
}.

(** A call of [load] suspended at [await indexes[locale]].  When
    [indexes[locale]] was no promise but the member of [Object.prototype]
    named by the locale, [k_inherited] is set and [k_index] stands for
    nothing. *)
Record Cont := {
  k_call : nat;
  k_index : nat;         (* the promise read from [indexes[locale]] *)
  k_inherited : bool;    (* [indexes[locale]] was an inherited member *)
  k_args : Args
}.

(** What a call of [load] has done so far: still suspended, returned the
    phrase promise [q] (which its caller then follows), or thrown. *)
Inductive Outcome :=
| Suspended
| Returns (q : nat)
| Throws (e : Error).

Record State := {
  indexes : gmap string nat;       (* caches.indexes, by promise number *)
  phrases : gmap string nat;       (* caches.phrases, by promise number *)
  index_jobs : list IndexJob;      (* the index promises ever made *)
  phrase_jobs : list PhraseJob;    (* the phrase promises ever made *)
  gets : list Request;             (* every GET, in the order issued *)
  waiting : list Cont;
  microtasks : list Cont;
  calls : list Outcome
}.

Definition init : State :=
  {| indexes := ∅; phrases := ∅; index_jobs := []; phrase_jobs := [];
     gets := []; waiting := []; microtasks := []; calls := [] |}.

(** *** The body of an HTTP exchange *)

(** [await res.json()] *)
Inductive Body :=
| BodyFails (e : Error)
| BodyJson (v : json).

(** [await fetch(...)] *)
Inductive Response :=
| FetchFails (e : Error)
| FetchResponds (status : N) (body : Body).

(** The [try] block of the index executor: [inl] is the thrown error. *)
Definition index_try (r : Response) : Error + gmap string string :=
  match r with
  | FetchFails e => inl e
  | FetchResponds status body =>
      if negb (status_is_2 status) then inl (new_Error "Failed to load")
      else match body with
           | BodyFails e => inl e
           | BodyJson v =>
               match isRecordOfStrings v with
               | None => inl (new_Error "Invalid format")
               | Some index => inr index
               end
           end
  end.

(** The [try] block of the phrase executor. *)
Definition phrase_try (r : Response) : Error + json :=
  match r with
  | FetchFails e => inl e
  | FetchResponds status body =>
      if negb (status_is_2 status) then inl (new_Error "Failed to load phrases")
      else match body with
           | BodyFails e => inl e
           | BodyJson v =>
               if negb (isRecord v) then inl (new_Error "Invalid format")
               else inr v
           end
  end.

(** The value passed to [reject] in the two [catch] blocks. *)
Definition index_rejection (loc : string) (err : Error) : Error :=
  if is_abort err then err
  else new_Error ("Could not read index for " ++ loc ++ ". Reason: "
                  ++ message err).

Definition phrase_rejection (loc ns : string) (err : Error) : Error :=
  if is_abort err then err
  else new_Error ("Failed to load phrases of namespace " ++ ns ++ " in "
                  ++ loc ++ ". Reason: " ++ message err).

(** The errors [load] throws itself. *)
Definition missing_index (loc : string) : Error :=
  new_Error ("Missing index for " ++ loc).

Definition missing_namespace (loc ns : string) : Error :=
  new_Error ("Missing namespace " ++ ns ++ " on locale " ++ loc).

(** *** State updates *)

Definition with_calls (f : list Outcome → list Outcome) (st : State) : State :=
  {| indexes := indexes st; phrases := phrases st;
     index_jobs := index_jobs st; phrase_jobs := phrase_jobs st;
     gets := gets st; waiting := waiting st;
     microtasks := microtasks st; calls := f (calls st) |}.

Definition awaits (p : nat) (k : Cont) : bool := bool_decide (k_index k = p).

Definition settle_job (s : promise (gmap string string)) (j : IndexJob)
    : IndexJob :=
  {| i_state := s; i_request := i_request j; i_locale := i_locale j |}.

(** [resolve(index)] / [reject(err)] of index promise [p], after the cache
    table became [cache]: the continuations that await [p] are queued in
    the order they started waiting. *)
Definition settle_index (p : nat) (s : promise (gmap string string))
    (cache : gmap string nat) (st : State) : State :=
  {| indexes := cache; phrases := phrases st;
     index_jobs := alter (settle_job s) p (index_jobs st);
     phrase_jobs := phrase_jobs st;
     gets := gets st;
     waiting := filter (fun k => awaits p k = false) (waiting st);
     microtasks :=
       microtasks st ++ filter (fun k => awaits p k = true) (waiting st);
     calls := calls st |}.

(** [resolve(resource)] / [reject(err)] of phrase promise [q]. *)
Definition settle_phrases (q : nat) (s : promise json)
    (cache : gmap string nat) (st : State) : State :=
  {| indexes := indexes st; phrases := cache;
     index_jobs := index_jobs st;
     phrase_jobs :=
       alter (fun j => {| p_state := s; p_request := p_request j;
                          p_locale := p_locale j;
                          p_namespace := p_namespace j |}) q (phrase_jobs st);
     gets := gets st; waiting := waiting st;
     microtasks := microtasks st; calls := calls st |}.

(** The state of index promise [p]. *)
Definition index_state (st : State) (p : nat)
    : option (promise (gmap string string)) :=
  i_state <$> index_jobs st !! p.

Definition phrase_state (st : State) (q : nat) : option (promise json) :=
  p_state <$> phrase_jobs st !! q.

(** [await p]: the continuation waits while [p] is pending and is queued as
    a microtask at once when [p] is settled already. *)
Definition await (k : Cont) (st : State) : State :=
  let queued :=
    match index_state st (k_index k) with
    | Some p => settled p
    | None => false
    end in
  {| indexes := indexes st; phrases := phrases st;
     index_jobs := index_jobs st; phrase_jobs := phrase_jobs st;
     gets := gets st;
     waiting := if queued then waiting st else waiting st ++ [k];
     microtasks := if queued then microtasks st ++ [k] else microtasks st;
     calls := calls st ++ [Suspended] |}.

(** [await v] for a value [v] that is no promise and has no [then] (a
    member of [Object.prototype]): the continuation is queued as a
    microtask at once. *)
Definition await_member (k : Cont) (st : State) : State :=
  {| indexes := indexes st; phrases := phrases st;
     index_jobs := index_jobs st; phrase_jobs := phrase_jobs st;
     gets := gets st; waiting := waiting st;
     microtasks := microtasks st ++ [k];
     calls := calls st ++ [Suspended] |}.

(** *** [load], up to [await indexes[locale]] *)

(** [fetch(`${baseUrl}/${locale}/${file}`, { signal })] *)
Definition request_for (a : Args) (file : string) : Request :=
  {| url := baseUrl a ++ "/" ++ locale a ++ "/" ++ file;
     req_signal := signal a |}.

(** The GET of the index executor.  It is issued only where
    [indexes[locale]] is falsy, so the locale names no inherited member and
    [manifest[locale]], which was truthy, is an own string. *)
Definition index_request (a : Args) : Request :=
  {| url := baseUrl a ++ "/" ++ locale a ++ "/"
            ++ default "undefined" (manifest a !! locale a);
     req_signal := signal a |}.

(** [indexes[locale] = new Promise(async (resolve, reject) => ...)]: the
    executor runs at once up to [await fetch(...)], so the GET is issued
    here.  Returns the new promise with the new state. *)
Definition start_index (a : Args) (st : State) : nat * State :=
  let p := length (index_jobs st) in
  (p,
   {| indexes := <[locale a := p]> (indexes st); phrases := phrases st;
      index_jobs := index_jobs st ++
        [{| i_state := Pending; i_request := index_request a;
            i_locale := locale a |}];
      phrase_jobs := phrase_jobs st;
      gets := gets st ++ [index_request a]; waiting := waiting st;
      microtasks := microtasks st; calls := calls st |}).

(** [phrases[id]] is read as an own property: the key contains ['-'], which
    no inherited name does.  [indexes[locale]] is an own promise, else the
    inherited member when the locale names one, else [undefined]. *)
Definition load (a : Args) (st : State) : State :=
  let id := key (locale a) (namespace a) in
  match phrases st !! id with
  | Some q => with_calls (fun cs => (cs ++ [Returns q])%list) st
  | None =>
      if negb (truthy_at (manifest a) (locale a)) then
        with_calls
          (fun cs => (cs ++ [Throws (missing_index (locale a))])%list) st
      else
        match indexes st !! locale a with
        | Some p =>
            await {| k_call := length (calls st); k_index := p;
                     k_inherited := false; k_args := a |} st
        | None =>
            if inherited (locale a) then
              await_member {| k_call := length (calls st); k_index := 0;
                              k_inherited := true; k_args := a |} st
            else
              let '(p, st1) := start_index a st in
              await {| k_call := length (calls st); k_index := p;
                       k_inherited := false; k_args := a |} st1
        end
  end.

(** *** [load], after [await indexes[locale]] *)

Section Realm.
Context `{!Realm}.

(** The GET of the phrase executor for a loaded index:
    [`${baseUrl}/${locale}/${index[namespace]}`]. *)
Definition phrase_request (a : Args) (index : gmap string string) : Request :=
  request_for a (to_string (read index (namespace a))).

(** [phrases[id] = new Promise(async (resolve, reject) => ...)] followed by
    [return phrases[id]]; [req] is the GET of the executor. *)
Definition start_phrases_with (k : Cont) (req : Request) (st : State)
    : State :=
  let a := k_args k in
  let q := length (phrase_jobs st) in
  {| indexes := indexes st;
     phrases := <[key (locale a) (namespace a) := q]> (phrases st);
     index_jobs := index_jobs st;
     phrase_jobs := phrase_jobs st ++
       [{| p_state := Pending; p_request := req;
           p_locale := locale a; p_namespace := namespace a |}];
     gets := gets st ++ [req]; waiting := waiting st;
     microtasks := microtasks st;
     calls := <[k_call k := Returns q]> (calls st) |}.

Definition start_phrases (k : Cont) (index : gmap string string) (st : State)
    : State :=
  start_phrases_with k (phrase_request (k_args k) index) st.

(** The call goes on with [index], the loaded index. *)
Definition resume_index (k : Cont) (index : gmap string string) (st : State)
    : State :=
  let a := k_args k in
  if negb (truthy_at index (namespace a)) then
    with_calls
      (fun cs => <[k_call k :=
                     Throws (missing_namespace (locale a) (namespace a))]> cs)
      st
  else start_phrases k index st.

(** The call goes on with [index] the member of [Object.prototype] named by
    the locale: [index[namespace]] is a read of a built-in object. *)
Definition resume_member (k : Cont) (st : State) : State :=
  let a := k_args k in
  match read_member (locale a) (namespace a) with
  | LThrows e => with_calls (fun cs => <[k_call k := Throws e]> cs) st
  | LFalsy =>
      with_calls
        (fun cs => <[k_call k :=
                       Throws (missing_namespace (locale a) (namespace a))]> cs)
        st
  | LTruthy text => start_phrases_with k (request_for a text) st
  end.

Definition resume (k : Cont) (st : State) : State :=
  if k_inherited k then resume_member k st
  else
    match index_state st (k_index k) with
    | Some (Rejected e) =>
        with_calls (fun cs => <[k_call k := Throws e]> cs) st
    | Some (Resolved index) => resume_index k index st
    | _ => st
    end.

(** *** The executors, after their [await]s *)

(** The GET of index promise [p] ends with [r].  A promise that is settled
    already has no exchange left. *)
Definition respond_index (p : nat) (r : Response) (st : State) : State :=
  match index_jobs st !! p with
  | Some j =>
      if settled (i_state j) then st
      else match index_try r with
           | inr index => settle_index p (Resolved index) (indexes st) st
           | inl err =>
               settle_index p (Rejected (index_rejection (i_locale j) err))
                 (delete (i_locale j) (indexes st)) st
           end
  | None => st
  end.

(** The GET of phrase promise [q] ends with [r]. *)
Definition respond_phrases (q : nat) (r : Response) (st : State) : State :=
  match phrase_jobs st !! q with
  | Some j =>
      if settled (p_state j) then st
      else match phrase_try r with
           | inr resource => settle_phrases q (Resolved resource) (phrases st) st
           | inl err =>
               settle_phrases q
                 (Rejected (phrase_rejection (p_locale j) (p_namespace j) err))
                 (delete (key (p_locale j) (p_namespace j)) (phrases st)) st
           end
  | None => st
  end.

(** *** The event loop *)

Inductive Event :=
| Call (a : Args)                         (* some caller invokes [load] *)
| IndexResponse (p : nat) (r : Response)  (* the GET of index promise [p] ends *)
| PhraseResponse (q : nat) (r : Response) (* the GET of phrase promise [q] ends *)
| Microtask.                              (* the first queued continuation runs *)

Definition pop (st : State) : State :=
  {| indexes := indexes st; phrases := phrases st;
     index_jobs := index_jobs st; phrase_jobs := phrase_jobs st;
     gets := gets st; waiting := waiting st;
     microtasks := tail (microtasks st); calls := calls st |}.

Definition step (st : State) (ev : Event) : State :=
  match ev with
  | Call a => load a st
  | IndexResponse p r => respond_index p r st
  | PhraseResponse q r => respond_phrases q r st
  | Microtask =>
      match microtasks st with
      | k :: _ => resume k (pop st)
      | [] => st
      end
  end.

Definition run_from (st : State) (evs : list Event) : State :=
  foldl step st evs.

Definition run (evs : list Event) : State := run_from init evs.

(** Every queued continuation runs. *)
Definition drain (st : State) : State :=
  run_from st (replicate (length (microtasks st)) Microtask).

(** *** Observations *)

(** The GETs issued so far for each resource kind. *)
Definition index_gets (st : State) : list Request :=
  i_request <$> index_jobs st.

Definition phrase_gets (st : State) : list Request :=
  p_request <$> phrase_jobs st.

(** What the promise returned by call [c] of [load] has settled to. *)
Definition result (st : State) (c : nat) : promise json :=
  match calls st !! c with
  | Some (Returns q) => default Pending (phrase_state st q)
  | Some (Throws e) => Rejected e
  | _ => Pending
  end.

(** *** Invariant *)

(** What a suspended call that read a promise from [indexes[locale]]
    awaits: an index promise that exists and, unless it was rejected, is the
    cache entry of the call's locale. *)
Definition awaits_cached (st : State) (k : Cont) : Prop :=
  ∃ s, index_state st (k_index k) = Some s
       ∧ ((∀ e, s ≠ Rejected e) →
          indexes st !! locale (k_args k) = Some (k_index k)).

(** What holds of the caches in every state the event loop reaches:
    - a cached index promise exists;
    - a pending index promise is the cache entry of its locale;
    - no locale of the index table is the name of an inherited member;
    - the index of the locale of every phrase promise is cached, resolved,
      and lists the namespace, unless the locale names an inherited member,
      which then has the namespace as a truthy property;
    - a suspended call read a promise from [indexes[locale]], which it
      awaits, or it read an inherited member and is queued. *)
Record Inv (st : State) : Prop := {
  inv_cached_exists : ∀ loc p,
    indexes st !! loc = Some p → is_Some (index_jobs st !! p);
  inv_pending_cached : ∀ p j,
    index_jobs st !! p = Some j → i_state j = Pending →
    indexes st !! i_locale j = Some p;
  inv_own : ∀ loc p,
    indexes st !! loc = Some p → inherited loc = false;
  inv_phrase_index : ∀ q j,
    phrase_jobs st !! q = Some j →
    (inherited (p_locale j) = false
     ∧ ∃ p index,
         indexes st !! p_locale j = Some p
         ∧ index_state st p = Some (Resolved index)
         ∧ truthy_at index (p_namespace j) = true)
    ∨ (inherited (p_locale j) = true
       ∧ ∃ text, read_member (p_locale j) (p_namespace j) = LTruthy text);
  inv_cont : ∀ k,
    k ∈ (waiting st ++ microtasks st)%list →
    (k_call k < length (calls st))%nat
    ∧ if k_inherited k then inherited (locale (k_args k)) = true
      else awaits_cached st k;
  inv_waiting : ∀ k, k ∈ waiting st → k_inherited k = false
}.


(** No poisoned cache: every cache entry is a promise that was made for
    that key and has not been rejected. *)
Record Live (st : State) : Prop := {
  live_index : ∀ loc p,
    indexes st !! loc = Some p →
    ∃ j, index_jobs st !! p = Some j ∧ i_locale j = loc
         ∧ ∀ e, i_state j ≠ Rejected e;
  live_phrases : ∀ id q,
    phrases st !! id = Some q →
    ∃ j, phrase_jobs st !! q = Some j
         ∧ id = key (p_locale j) (p_namespace j)
         ∧ ∀ e, p_state j ≠ Rejected e
}.

End Realm.

End Loader.

(** ** The lookup store: [loadPhrases] and [usePolyglot] *)

Module Store.
Import Js.

Section Store.
(** [PolyglotWithStaticLocale], the lookup object; the store never looks
    inside it. *)
Context {Polyglot : Type}.

(** The lookup builder behind [initiatePolyglot]. *)
Variable build : string → string → json → Polyglot.

(** Modelled from the spec: [initiatePolyglot] of [./common] is not among
    the sources; it yields the store entry of one loaded pair, "keyed by
    [locale+namespace]", the key [usePolyglot] reads back. *)
Definition initiatePolyglot (locale ns : string) (phrases : json)
    : string * Polyglot :=
  (Loader.key locale ns, build locale ns phrases).

(** [nextLocale || locale] *)
Definition pick_locale (nextLocale : option string) (locale : string) : string :=
  match nextLocale with
  | Some l => if truthy l then l else locale
  | None => locale
  end.

(** [updateStore((current) => ({ ...current, ...more }))] *)
Definition merge (current more : gmap string Polyglot) : gmap string Polyglot :=
  spread current more.

(** [loadPhrases], once every [load] of its namespaces has resolved:
    [loaded] pairs each namespace with its phrase set, in the order of the
    [namespace] argument. *)
Definition loadPhrases (nextLocale : option string) (locale : string)
    (loaded : list (string * json)) (current : gmap string Polyglot)
    : gmap string Polyglot :=
  let more :=
    fromEntries
      ((fun l => initiatePolyglot (pick_locale nextLocale locale) l.1 l.2)
         <$> loaded) in
  merge current more.

Definition unknown_namespace (ns locale : string) : Error :=
  new_Error ("Unknown namespace " ++ ns ++ " in " ++ locale).

(** [usePolyglot(namespace = 'common')]; [None] is a call without the
    argument.  [inl] is the thrown error. *)
Definition usePolyglot (store : gmap string Polyglot) (locale : string)
    (namespace : option string) : Error + Polyglot :=
  let ns := default "common" namespace in
  let id := Loader.key locale ns in
  match store !! id with
  | None => inl (unknown_namespace ns locale)
  | Some entry => inr entry
  end.

End Store.
End Store.

(** ** The route hooks patched by [Handoff] *)

Module Handoff.
Import Js.

(** [namespaces]: one namespace or an array of them. *)
Inductive Namespaces :=
| One (ns : string)
| Many (nss : list string).

Definition truthy_namespaces (n : option Namespaces) : bool :=
  match n with
  | Some (One ns) => truthy ns
  | Some (Many _) => true
  | None => false
  end.

(** What [preloadTranslations(preloadArgs)] returned. *)
Record Preload := {
  p_locale : option string;
  p_namespaces : option Namespaces
}.

(** One invocation of a patched [loader] or [action]: the value of
    [typeof preloadTranslations === 'function' && preloadTranslations(...)]
    ([None] when it is falsy) and [routeNamespaces[route.id]]. *)
Record Invocation := {
  preload : option Preload;
  route_namespaces : option Namespaces
}.

(** [const { locale, namespaces = routeNamespaces[route.id] } = ... || {}] *)
Definition requested_locale (i : Invocation) : option string :=
  p_locale (default {| p_locale := None; p_namespaces := None |} (preload i)).

Definition requested_namespaces (i : Invocation) : option Namespaces :=
  match p_namespaces
          (default {| p_locale := None; p_namespaces := None |} (preload i)) with
  | Some n => Some n
  | None => route_namespaces i
  end.

(** [!ref.current && locale] needs a truthy locale. *)
Definition wants_commit (l : option string) : option string :=
  match l with
  | Some s => if truthy s then Some s else None
  | None => None
  end.

(** Modelled from the spec: the batcher, [batcher(0)] of the external
    package [ichschwoer/batch-resolve], is not among the sources.  The
    design gives it a flag shared by every hook of the tick ([batch.ref])
    and a [register] ([batch.push]) whose promise is the settlement barrier
    of the tick.  Which loads that promise covers is read in two ways:
    "every load registered in that tick" (the responsibility of the batcher
    and the ordering guarantee), or "all promises accumulated up to and
    including this call" (the sentence on [register]).  Whether a rejected
    load rejects the promise is left open as well. *)
Inductive Scope :=
| WholeBatch   (* every load registered in the tick, once its window is over *)
| UpToCall.    (* the loads registered up to and including this call *)

Record Batcher := {
  scope : Scope;
  swallows : bool   (* individual failures do not reject the aggregate *)
}.

Section Tick.
Context {Data : Type}.
Variable B : Batcher.

(** One invocation of a patched hook in the tick.  The original [loader]
    or [action] of a client route is an [async] function: calling it yields
    a promise. *)
Record Hook := {
  h_locale : option string;     (* [locale] *)
  h_load : bool;                (* [promisedPhrases] is a promise, registered *)
  h_original : promise Data;    (* [original(args)] *)
  h_phrases : promise unit;     (* [promisedPhrases] *)
  h_resumed : bool;             (* past [await Promise.all(...)] *)
  h_then : option string;       (* [.then(() => setLocale(locale))], not yet run *)
  h_result : promise Data       (* the promise the patched hook returned *)
}.

Record Tick := {
  hooks : list Hook;            (* in invocation order *)
  committed : bool;             (* [ref.current] *)
  closed : bool;                (* the batch window is over *)
  commits : list string;        (* the [setLocale] calls, in order *)
  console : list Error          (* [console.error] *)
}.

Definition start : Tick :=
  {| hooks := []; committed := false; closed := false; commits := [];
     console := [] |}.

(** The loads registered in the batch and whether all of them settled. *)
Definition registered (hs : list Hook) : list Hook :=
  filter (fun h => h_load h = true) hs.

Definition all_settled (hs : list Hook) : bool :=
  forallb (fun h => settled (h_phrases h)) (registered hs).

Definition first_rejection (hs : list Hook) : option Error :=
  head (omap (fun h => match h_phrases h with
                       | Rejected e => Some e
                       | _ => None
                       end) (registered hs)).

(** Modelled from the spec: the loads the promise returned to hook [h] by
    [batch.push] covers, by the batcher's scope. *)
Definition covered (st : Tick) (h : nat) : list Hook :=
  match scope B with
  | WholeBatch => hooks st
  | UpToCall => take (S h) (hooks st)
  end.

(** Modelled from the spec: [allPhrasesLoaded] of hook [h], the promise
    [batch.push] returned.  It settles once every load it covers has
    settled (and, for the whole batch, the window is over); it resolves
    unless a covered load was rejected and the batcher passes failures
    on. *)
Definition aggregate (st : Tick) (h : nat) : promise unit :=
  let open := match scope B with
              | WholeBatch => negb (closed st)
              | UpToCall => false
              end in
  if open then Pending
  else if all_settled (covered st h) then
    match first_rejection (covered st h) with
    | Some e => if swallows B then Resolved tt else Rejected e
    | None => Resolved tt
    end
  else Pending.

(** *** The patched hook *)

(** Up to [await Promise.all(...)]: the load is registered with the batch
    and the original hook is started.  Once the window is over the batch
    takes no further registration. *)
Definition invoke (i : Invocation) (st : Tick) : Tick :=
  if closed st then st
  else
    {| hooks := hooks st ++
         [{| h_locale := requested_locale i;
             h_load := truthy_namespaces (requested_namespaces i);
             h_original := Pending; h_phrases := Pending;
             h_resumed := false; h_then := None; h_result := Pending |}];
       committed := committed st; closed := closed st;
       commits := commits st; console := console st |}.

Definition with_hook (n : nat) (f : Hook → Hook) (st : Tick) : Tick :=
  {| hooks := alter f n (hooks st);
     committed := committed st; closed := closed st;
     commits := commits st; console := console st |}.

(** [original(args)] settles. *)
Definition original_settles (n : nat) (o : promise Data) (st : Tick) : Tick :=
  match hooks st !! n with
  | Some h =>
      if settled o && negb (settled (h_original h)) then
        with_hook n (fun h =>
          {| h_locale := h_locale h; h_load := h_load h; h_original := o;
             h_phrases := h_phrases h; h_resumed := h_resumed h;
             h_then := h_then h; h_result := h_result h |}) st
      else st
  | None => st
  end.

(** [promisedPhrases] settles; its [catch] handler runs: an [AbortError] is
    dropped, any other error goes to [console.error]. *)
Definition phrases_settle (n : nat) (o : promise unit) (st : Tick) : Tick :=
  match hooks st !! n with
  | Some h =>
      if h_load h && settled o && negb (settled (h_phrases h)) then
        let st1 :=
          with_hook n (fun h =>
            {| h_locale := h_locale h; h_load := h_load h;
               h_original := h_original h; h_phrases := o;
               h_resumed := h_resumed h; h_then := h_then h;
               h_result := h_result h |}) st in
        match o with
        | Rejected e =>
            if is_abort e then st1
            else {| hooks := hooks st1; committed := committed st1;
                    closed := closed st1; commits := commits st1;
                    console := console st1 ++ [e] |}
        | _ => st1
        end
      else st
  | None => st
  end.

(** [Promise.all([original(args), promisedPhrases?.catch(...)])]: rejected
    as soon as the original hook is, resolved with the original's value once
    the caught load has settled too. *)
Definition both (h : Hook) : promise Data :=
  match h_original h with
  | Rejected e => Rejected e
  | Resolved res =>
      if h_load h && negb (settled (h_phrases h)) then Pending
      else Resolved res
  | Pending => Pending
  end.

(** After [await Promise.all(...)]. *)
Definition resume (n : nat) (st : Tick) : Tick :=
  match hooks st !! n with
  | Some h =>
      if h_resumed h then st
      else
        match both h with
        | Pending => st
        | Rejected e =>
            with_hook n (fun h =>
              {| h_locale := h_locale h; h_load := h_load h;
                 h_original := h_original h; h_phrases := h_phrases h;
                 h_resumed := true; h_then := h_then h;
                 h_result := Rejected e |}) st
        | Resolved res =>
            let winner :=
              if committed st then None else wants_commit (h_locale h) in
            {| hooks :=
                 alter (fun h =>
                   {| h_locale := h_locale h; h_load := h_load h;
                      h_original := h_original h; h_phrases := h_phrases h;
                      h_resumed := true; h_then := winner;
                      h_result := Resolved res |}) n (hooks st);
               committed := match winner with
                            | Some _ => true
                            | None => committed st
                            end;
               closed := closed st; commits := commits st;
               console := console st |}
        end
  | None => st
  end.

(** The callback hook [n] attached to [allPhrasesLoaded] runs, once that
    promise is settled: [setLocale(locale)] when it resolved, [noop] when
    it rejected. *)
Definition react (n : nat) (st : Tick) : Tick :=
  match hooks st !! n with
  | Some h =>
      match h_then h, aggregate st n with
      | Some l, Resolved _ =>
          {| hooks :=
               alter (fun h =>
                 {| h_locale := h_locale h; h_load := h_load h;
                    h_original := h_original h; h_phrases := h_phrases h;
                    h_resumed := h_resumed h; h_then := None;
                    h_result := h_result h |}) n (hooks st);
             committed := committed st; closed := closed st;
             commits := commits st ++ [l]; console := console st |}
      | Some l, Rejected _ =>
          with_hook n (fun h =>
            {| h_locale := h_locale h; h_load := h_load h;
               h_original := h_original h; h_phrases := h_phrases h;
               h_resumed := h_resumed h; h_then := None;
               h_result := h_result h |}) st
      | _, _ => st
      end
  | None => st
  end.

Definition close (st : Tick) : Tick :=
  {| hooks := hooks st; committed := committed st; closed := true;
     commits := commits st; console := console st |}.

Inductive Event :=
| Invoke (i : Invocation)
| OriginalSettles (n : nat) (o : promise Data)
| PhrasesSettle (n : nat) (o : promise unit)
| Resume (n : nat)
| Close
| React (n : nat).

Definition step (st : Tick) (ev : Event) : Tick :=
  match ev with
  | Invoke i => invoke i st
  | OriginalSettles n o => original_settles n o st
  | PhrasesSettle n o => phrases_settle n o st
  | Resume n => resume n st
  | Close => close st
  | React n => react n st
  end.

Definition run (evs : list Event) : Tick := foldl step start evs.

(** *** Invariant *)

(** The locales whose [setLocale] is attached to the aggregate and has not
    run yet. *)
Definition thens (hs : list Hook) : list string := omap h_then hs.

Definition weight (o : option string) : nat :=
  match o with Some _ => 1 | None => 0 end.

(** What holds in every state of a tick:
    - commits made and commits still attached are one at most, and none
      unless the flag [ref.current] is set;
    - a hook still before its [await] has attached nothing. *)
Record TInv (st : Tick) : Prop := {
  tinv_once :
    (length (commits st) + length (thens (hooks st))
     ≤ (if committed st then 1 else 0))%nat;
  tinv_fresh : ∀ n h,
    hooks st !! n = Some h → h_resumed h = false → h_then h = None
}.

End Tick.
End Handoff.

(** ** Counting the GETs of [load] *)

Module LoaderBudget.
Import Js Loader.

Definition is_call (ev : Event) : bool :=
  match ev with Call _ => true | _ => false end.

(** Every phrase promise was made by a call that is no longer suspended,
    every index promise by a call, and every GET belongs to a promise. *)
Record Budget (st : State) : Prop := {
  budget_phrases :
    (length (phrase_jobs st) + length (waiting st) + length (microtasks st)
     ≤ length (calls st))%nat;
  budget_indexes : (length (index_jobs st) ≤ length (calls st))%nat;
  budget_gets :
    length (gets st) = (length (index_jobs st) + length (phrase_jobs st))%nat
}.

End LoaderBudget.

(** ** Invariants of a tick *)

Module TickInvariants.
Import Js Handoff.

Section Tick.
Context {Data : Type}.

(** Where the locale of a commit comes from: every hook keeps the locale
    its invocation asked for, a callback is attached only for a truthy
    locale of its hook, and a commit is the locale of a callback. *)
Definition commits_requested (evs : list (@Event Data)) (st : @Tick Data)
    : Prop :=
  (∀ n h, hooks st !! n = Some h →
          (∃ i, Invoke i ∈ evs ∧ h_locale h = requested_locale i)
          ∧ ∀ l, h_then h = Some l → wants_commit (h_locale h) = Some l)
  ∧ (∀ l, l ∈ commits st →
          ∃ i, Invoke i ∈ evs ∧ wants_commit (requested_locale i) = Some l).

(** What a returned hook has waited for. *)
Definition waited (st : @Tick Data) : Prop :=
  ∀ n h, hooks st !! n = Some h →
    (h_resumed h = false → h_result h = Pending)
    ∧ ∀ res, h_result h = Resolved res →
             h_load h = true → settled (h_phrases h) = true.

End Tick.
End TickInvariants.

(** ** The provider: [setup] and [loadPhrases] as callers of [load] *)

Module Provider.
Import Js Loader.

(** [Array.isArray(namespace) ? namespace : [namespace]] *)
Definition namespace_list (n : Handoff.Namespaces) : list string :=
  match n with
  | Handoff.One ns => [ns]
  | Handoff.Many nss => nss
  end.

(** The calls of [load] that [loadPhrases(namespace, signal, nextLocale)]
    makes, one per namespace and in that order: the callback of [.map] is
    [async], so each [load] is called before the next callback starts. *)
Definition loadPhrases_calls (man : gmap string string) (base : string)
    (locale : string) (n : Handoff.Namespaces) (sig : nat)
    (nextLocale : option string) : list Args :=
  (fun ns => {| namespace := ns; manifest := man;
                locale := Store.pick_locale nextLocale locale;
                baseUrl := base; signal := Some sig |})
    <$> namespace_list n.


(** What a call of a batch for locale [loc] has to meet to reach the
    index: the locale, a manifest entry for it, and nothing cached under
    its key. *)
Definition fresh_call (loc : string) (st : State) (a : Args) : Prop :=
  locale a = loc ∧ truthy_at (manifest a) loc = true
  ∧ phrases st !! key loc (namespace a) = None.

(** The calls run one after the other, each up to its first [await]. *)
Definition start_loads (calls : list Args) (st : State) : State :=
  foldl (fun s a => load a s) st calls.

(** [await Promise.all(...)] over promises that have all settled: the
    values when every one resolved, nothing when one was rejected. *)
Definition all_resolved {A} (ps : list (promise A)) : option (list A) :=
  mapM (fun p => match p with Resolved v => Some v | _ => None end) ps.

Section Store.
Context {Polyglot : Type}.
Variable build : string → string → json → Polyglot.

(** [loadPhrases] once the loads of its namespaces [nss] have settled to
    [results]: [updateStore] runs only when [Promise.all] resolved. *)
Definition loadPhrases_settled (nextLocale : option string) (locale : string)
    (nss : list string) (results : list (promise json))
    (current : gmap string Polyglot) : gmap string Polyglot :=
  match all_resolved results with
  | Some loaded =>
      Store.loadPhrases build nextLocale locale (zip nss loaded) current
  | None => current
  end.

(** [initialStore] of [setup]: [Object.fromEntries] of the entries built
    for the route namespaces; [setup] itself rejects when a load does. *)
Definition initialStore (locale : string) (nss : list string)
    (results : list (promise json)) : option (gmap string Polyglot) :=
  (fun loaded =>
     fromEntries
       ((fun l => Store.initiatePolyglot build locale l.1 l.2)
          <$> zip nss loaded))
    <$> all_resolved results.

End Store.
End Provider.

(** ** [Handoff]: patching the client routes *)

Module Routes.

(** A route data function: one the route came with, or the [async]
    wrapper that [patch] made around [original] in the effect run that
    created the batcher [batch]. *)
Inductive Fn :=
| Own (f : nat)
| Wrapper (original : Fn) (batch : nat).

(** A client route: its [loader] and [action], what [route[_patched]]
    holds ([None] while the property is missing; otherwise the [loader] and
    [action] saved there), and its [children]. *)
#[warnings="-register-all"]
Inductive Route :=
| mkRoute (id : string) (loader action : option Fn)
    (patched : option (option Fn * option Fn))
    (children : option (list Route)).

Definition loader (r : Route) : option Fn :=
  match r with mkRoute _ l _ _ _ => l end.

Definition action (r : Route) : option Fn :=
  match r with mkRoute _ _ a _ _ => a end.

Definition patched (r : Route) : option (option Fn * option Fn) :=
  match r with mkRoute _ _ _ p _ => p end.

Definition children (r : Route) : option (list Route) :=
  match r with mkRoute _ _ _ _ c => c end.

(** [route[_patched][method] || route[method]] *)
Definition original_of (saved current : option Fn) : option Fn :=
  match saved with
  | Some f => Some f
  | None => current
  end.

(** [if (original) { route[method] = async (args) => ... }] *)
Definition wrap (batch : nat) (original current : option Fn) : option Fn :=
  match original with
  | Some f => Some (Wrapper f batch)
  | None => current
  end.

(** [patch(route)] in the effect run with batcher [batch]. *)
Fixpoint patch (batch : nat) (r : Route) : Route :=
  match r with
  | mkRoute id l a p c =>
      let saved := default (None, None) p in
      let ol := original_of saved.1 l in
      let oa := original_of saved.2 a in
      mkRoute id (wrap batch ol l) (wrap batch oa a) (Some (ol, oa))
        (fmap (M := option) (map (patch batch)) c)
  end.

(** [clientRoutes.forEach(patch)] *)
Definition patch_all (batch : nat) (routes : list Route) : list Route :=
  patch batch <$> routes.

(** No [route[_patched]] anywhere and every function the route's own: the
    routes before the first effect run. *)
Fixpoint untouched (r : Route) : bool :=
  match r with
  | mkRoute _ l a p c =>
      match p with None => true | Some _ => false end
      && match l with Some (Wrapper _ _) => false | _ => true end
      && match a with Some (Wrapper _ _) => false | _ => true end
      && match c with
         | Some cs => forallb untouched cs
         | None => true
         end
  end.

(** Every function of the tree is missing or a wrapper made by [batch]
    around a function of the route's own. *)
Definition wrapped_once (batch : nat) (f : option Fn) : bool :=
  match f with
  | None => true
  | Some (Wrapper (Own _) b) => bool_decide (b = batch)
  | Some _ => false
  end.

Fixpoint all_wrapped_once (batch : nat) (r : Route) : bool :=
  match r with
  | mkRoute _ l a _ c =>
      wrapped_once batch l && wrapped_once batch a
      && match c with
         | Some cs => forallb (all_wrapped_once batch) cs
         | None => true
         end
  end.

End Routes.

(** ** The example route: the language switch link *)

Module Example.

(** [s.split(sep)] for a separator of one character. *)
Fixpoint split (sep : ascii) (s : string) : list string :=
  match s with
  | EmptyString => [""]
  | String c rest =>
      if bool_decide (c = sep) then "" :: split sep rest
      else match split sep rest with
           | part :: parts => String c part :: parts
           | [] => [String c ""]
           end
  end.

(** [parts.join(sep)] *)
Fixpoint join (sep : string) (parts : list string) : string :=
  match parts with
  | [] => ""
  | [part] => part
  | part :: rest => part ++ sep ++ join sep rest
  end.

(** [[locale === 'en' ? '/es' : '/en',
      ...loc.pathname.split('/').slice(2)].join('/')] *)
Definition langSwitch (locale pathname : string) : string :=
  join "/"
    ((if bool_decide (locale = "en") then "/es" else "/en")
       :: drop 2 (split "/"%char pathname)).

(** No ['/'] in the string. *)
Fixpoint no_slash (s : string) : bool :=
  match s with
  | EmptyString => true
  | String c rest => negb (bool_decide (c = "/"%char)) && no_slash rest
  end.

End Example.

(** ** [build.js]: what the bundler leaves external *)

Module Build.

(** [[^./]] *)
Definition other (c : ascii) : bool :=
  negb (bool_decide (c = "."%char)) && negb (bool_decide (c = "/"%char)).

(** The filter [/^[^./]|^\.[^./]|^\.\.[^/]/] of the second [onResolve]:
    its three alternatives, each anchored at the start of the path. *)
Definition starts_other (path : string) : bool :=
  match path with
  | String c _ => other c
  | _ => false
  end.

Definition starts_dot_other (path : string) : bool :=
  match path with
  | String "."%char (String c _) => other c
  | _ => false
  end.

Definition starts_dot_dot_not_slash (path : string) : bool :=
  match path with
  | String "."%char (String "."%char (String c _)) =>
      negb (bool_decide (c = "/"%char))
  | _ => false
  end.

Definition filter_external (path : string) : bool :=
  starts_other path || starts_dot_other path || starts_dot_dot_not_slash path.

End Build.

(** ** Locales without a hyphen *)

Module Keys.

(** No ['-'] in the string. *)
Fixpoint hyphen_free (s : string) : bool :=
  match s with
  | EmptyString => true
  | String c rest => negb (bool_decide (c = "-"%char)) && hyphen_free rest
  end.

End Keys.

(** ** Sample inputs *)

Module Scenario.
Import Js Loader.

Definition manifest_en : gmap string string := {[ "en" := "idx-en.json" ]}.

Definition call (loc ns : string) (sig : option nat) : Args :=
  {| namespace := ns; manifest := manifest_en; locale := loc;
     baseUrl := "/i18n"; signal := sig |}.

Definition ok (v : json) : Response := FetchResponds 200 (BodyJson v).

Definition not_found : Response := FetchResponds 404 (BodyJson JNull).

Definition aborted : Error :=
  mkError "AbortError" "The user aborted a request.".

Definition index_en : json :=
  JObject [("common", JString "common-en.json")].

Definition index_blank : json := JObject [("common", JString "")].

(** The first call for [en]/['common'], suspended on index promise [0]. *)
Definition first_call : Cont :=
  {| k_call := 0; k_index := 0; k_inherited := false;
     k_args := call "en" "common" None |}.

(** The index promise that call makes. *)
Definition first_index_job : IndexJob :=
  {| i_state := Pending;
     i_request := {| url := "/i18n/en/idx-en.json"; req_signal := None |};
     i_locale := "en" |}.

(** Two callers, each with a token of its own, ask for [en]/['common']
    before the index has arrived. *)
Definition two_callers : list Event :=
  [Call (call "en" "common" (Some 1)); Call (call "en" "common" (Some 2))].

Definition second_of_two : Cont :=
  {| k_call := 1; k_index := 0; k_inherited := false;
     k_args := call "en" "common" (Some 2) |}.

Definition shared_index_job : IndexJob :=
  {| i_state := Pending;
     i_request := {| url := "/i18n/en/idx-en.json"; req_signal := Some 1 |};
     i_locale := "en" |}.

Definition phrases_en : json := JObject [("greeting", JString "Hello")].

Definition phrases_en' : json := JObject [("greeting", JString "Hi")].

(** A sample realm.  Built-in functions print as V8 prints them, and no
    built-in member has a truthy property (the samples ask them for
    ['common'] only, which no engine defines). *)
Definition realm : Realm :=
  {| shown name :=
       if bool_decide (name = "__proto__") then "[object Object]"
       else "function "
            ++ (if bool_decide (name = "constructor") then "Object" else name)
            ++ "() { [native code] }";
     read_member _ _ := LFalsy |}.

End Scenario.

Module TickScenario.
Import Js Handoff.

(** The batcher as the design describes its purpose: the aggregate covers
    the whole batch and swallows individual failures. *)
Definition whole : Batcher := {| scope := WholeBatch; swallows := true |}.

(** The batcher under the narrower reading of [register]. *)
Definition up_to_call : Batcher := {| scope := UpToCall; swallows := true |}.

(** A hook whose [preloadTranslations] asks for locale [es]; the route
    needs ['common']. *)
Definition wants_es : Invocation :=
  {| preload := Some {| p_locale := Some "es"; p_namespaces := None |};
     route_namespaces := Some (Many ["common"]) |}.

(** Two hooks want [es]; the first load resolves, the second is rejected;
    both original hooks resolve; the window closes; both hooks resume. *)
Definition two_hooks : list (@Event nat) :=
  [Invoke wants_es; Invoke wants_es;
   PhrasesSettle 0 (Resolved tt);
   PhrasesSettle 1 (Rejected (new_Error "Failed to load phrases"));
   OriginalSettles 0 (Resolved 10); OriginalSettles 1 (Resolved 11);
   Close; Resume 0; Resume 1].

(** The first hook is done while the load of the second is still out. *)
Definition first_hook_done : list (@Event nat) :=
  [Invoke wants_es; Invoke wants_es;
   PhrasesSettle 0 (Resolved tt); OriginalSettles 0 (Resolved 10);
   Close; Resume 0; React 0].

(** One hook: its original resolved with [10], its load was rejected. *)
Definition load_failed : list (@Event nat) :=
  [Invoke wants_es; OriginalSettles 0 (Resolved 10);
   PhrasesSettle 0 (Rejected (new_Error "Failed to load phrases"))].

Definition hook_after_failure : @Hook nat :=
  {| h_locale := Some "es"; h_load := true; h_original := Resolved 10;
     h_phrases := Rejected (new_Error "Failed to load phrases");
     h_resumed := false; h_then := None; h_result := Pending |}.

End TickScenario.

(** * Properties *)

Import Js Common.

(** ** The lookup store *)

Section StoreFacts.
Context {Polyglot : Type}.
Variable build : string → string → json → Polyglot.
Implicit Types current more : gmap string Polyglot.

Lemma merge_lookup_new current more k v :
  more !! k = Some v → Store.merge current more !! k = Some v.
Proof. intros Hk. unfold Store.merge, spread. by apply lookup_union_Some_l. Qed.

Lemma merge_lookup_old current more k :
  more !! k = None → Store.merge current more !! k = current !! k.
Proof. intros Hk. unfold Store.merge, spread. by apply lookup_union_r. Qed.

Lemma merge_twice current more :
  Store.merge (Store.merge current more) more = Store.merge current more.
Proof.
  unfold Store.merge, spread.
  by rewrite (assoc_L (∪)), (idemp_L (∪)).
Qed.

(** C8: [merge] is an additive union keyed by [locale+namespace]: it keeps
    every existing key, an entry of the later argument replaces the prior
    value under its key, keys the later argument lacks keep their value, and
    merging the same entries a second time changes nothing; the same holds
    for [loadPhrases], which stores a loaded pair under [key locale ns]. *)
Theorem merge_additive_replacing_idempotent current more :
  dom (Store.merge current more) = dom current ∪ dom more
  ∧ (∀ k, is_Some (current !! k) → is_Some (Store.merge current more !! k))
  ∧ (∀ k v, more !! k = Some v → Store.merge current more !! k = Some v)
  ∧ (∀ k, more !! k = None → Store.merge current more !! k = current !! k)
  ∧ Store.merge (Store.merge current more) more = Store.merge current more
  ∧ (∀ next locale ns phr,
       Store.loadPhrases build next locale [(ns, phr)] current
       = <[Loader.key (Store.pick_locale next locale) ns
           := build (Store.pick_locale next locale) ns phr]> current)
  ∧ (∀ next locale loaded,
       Store.loadPhrases build next locale loaded
         (Store.loadPhrases build next locale loaded current)
       = Store.loadPhrases build next locale loaded current).
Proof.
  split_and!.
  - unfold Store.merge, spread. by rewrite dom_union_L, (comm_L (∪)).
  - intros k [v Hv]. destruct (more !! k) as [w|] eqn:Hm.
    + exists w. by apply merge_lookup_new.
    + exists v. by rewrite merge_lookup_old.
  - apply merge_lookup_new.
  - apply merge_lookup_old.
  - apply merge_twice.
  - intros next locale ns phr. unfold Store.loadPhrases, Store.merge, spread.
    cbn. unfold Store.initiatePolyglot. cbn.
    by rewrite insert_empty, <- insert_union_singleton_l.
  - intros next locale loaded. unfold Store.loadPhrases. apply merge_twice.
Qed.

(** C10: without a namespace argument [usePolyglot] looks up ['common'],
    and a lookup whose exact key [locale-namespace] is absent from the store
    throws the unknown-namespace error, whatever the store holds for other
    locales. *)
Theorem usePolyglot_default_and_unknown
    (store : gmap string Polyglot) (locale : string) (namespace : option string) :
  store !! Loader.key locale (default "common" namespace) = None →
  Store.usePolyglot store locale None
  = Store.usePolyglot store locale (Some "common")
  ∧ Store.usePolyglot store locale namespace
    = inl (Store.unknown_namespace (default "common" namespace) locale).
Proof.
  intros Hmiss. split; [reflexivity|].
  unfold Store.usePolyglot. cbn zeta. by rewrite Hmiss.
Qed.

End StoreFacts.

(** A store that has ['common'] for [es] only: the lookup for [en] throws. *)
Lemma usePolyglot_default_and_unknown_witness :
  let store : gmap string nat := {[ "es-common" := 1 ]} in
  Store.usePolyglot store "en" None = Store.usePolyglot store "en" (Some "common")
  ∧ Store.usePolyglot store "en" None
    = inl (Store.unknown_namespace "common" "en").
Proof.
  exact (usePolyglot_default_and_unknown {[ "es-common" := 1 ]} "en" None
           eq_refl).
Defined.

(** ** [load]: what one call does *)

Import Loader.
Open Scope list_scope.
Open Scope nat_scope.

Section LoadFacts.
Context `{!Realm}.


Lemma truthy_at_None (obj : gmap string string) k :
  obj !! k = None → truthy_at obj k = inherited k.
Proof.
  intros H0. unfold truthy_at, read. rewrite H0. by destruct (inherited k).
Qed.

Lemma truthy_at_false (obj : gmap string string) k :
  truthy_at obj k = false ↔
  (obj !! k = None ∧ inherited k = false) ∨ obj !! k = Some "".
Proof.
  unfold truthy_at, read, truthy. destruct (obj !! k) as [v|].
  - cbn [truthy_value]. unfold truthy. case_bool_decide as Hv; cbn.
    + subst v. split; [by right | done].
    + split; [done | intros [[[=] _] | [= ->]]; done].
  - destruct (inherited k); cbn [truthy_value].
    + split; [done | intros [[_ [=]] | [=]]].
    + split; [by left | done].
Qed.

(** No inherited name contains ['-'], and every key does: the phrase cache
    and the lookup store are read at own properties only. *)
Lemma inherited_hyphen_free k :
  inherited k = true → Keys.hyphen_free k = true.
Proof.
  intros Hk%bool_decide_eq_true. revert k Hk. apply Forall_forall.
  unfold inherited_names. repeat constructor.
Qed.

Lemma key_has_hyphen loc ns : Keys.hyphen_free (key loc ns) = false.
Proof.
  induction loc as [|c loc IH]; [done|].
  change (key (String c loc) ns) with (String c (key loc ns)).
  cbn [Keys.hyphen_free]. rewrite IH. apply andb_false_r.
Qed.

Lemma key_not_inherited loc ns : inherited (key loc ns) = false.
Proof.
  destruct (inherited (key loc ns)) eqn:Hk; [|done].
  apply inherited_hyphen_free in Hk. by rewrite key_has_hyphen in Hk.
Qed.

(** C6, as the code has it: a call of [load] for a locale without a manifest
    entry throws the missing-index error at once, unless the phrase cache
    already holds the key [locale-namespace], whose promise is returned
    first, and unless the locale is the name of a member of
    [Object.prototype]: then [manifest[locale]] is that member, the test
    passes and the call goes on to [await indexes[locale]].  In every case
    the call issues no GET and leaves both caches alone. *)
Theorem load_missing_locale_config (a : Args) (st : State) :
  manifest a !! locale a = None →
  (inherited (locale a) = false →
   calls (load a st) !! length (calls st)
   = Some (match phrases st !! key (locale a) (namespace a) with
           | Some q => Returns q
           | None => Throws (missing_index (locale a))
           end)
   ∧ gets (load a st) = gets st
   ∧ indexes (load a st) = indexes st
   ∧ phrases (load a st) = phrases st)
  ∧ (inherited (locale a) = true →
     calls (load a st) !! length (calls st)
     = Some (match phrases st !! key (locale a) (namespace a) with
             | Some q => Returns q
             | None => Suspended
             end)
     ∧ gets (load a st) = gets st
     ∧ indexes (load a st) = indexes st
     ∧ phrases (load a st) = phrases st).
Proof.
  intros Hman. unfold load. cbn zeta.
  rewrite (truthy_at_None _ _ Hman). split; intros Hin; rewrite Hin; cbn.
  - destruct (phrases st !! key (locale a) (namespace a)) as [q|]; cbn;
      (split_and!; try done; by rewrite lookup_app_r, Nat.sub_diag).
  - destruct (phrases st !! key (locale a) (namespace a)) as [q|]; cbn.
    { split_and!; try done. by rewrite lookup_app_r, Nat.sub_diag. }
    destruct (indexes st !! locale a) as [p|]; cbn.
    + split_and!; try done. by rewrite lookup_app_r, Nat.sub_diag.
    + split_and!; try done. by rewrite lookup_app_r, Nat.sub_diag.
Qed.

(** C5, as the code has it: once the awaited index has resolved, the call
    throws the missing-namespace error exactly when [index[namespace]] is
    falsy, that is when the index maps the namespace to the empty string, or
    has no entry for it and the namespace is not the name of a member of
    [Object.prototype]; in that case no GET is issued and the phrase cache
    is untouched.  For a namespace that the index lacks and that is such a
    name the call does not throw: it issues a phrase GET for the text of
    the inherited member. *)
Theorem resume_missing_namespace (k : Cont) (st : State)
    (index : gmap string string) :
  k_inherited k = false →
  index_state st (k_index k) = Some (Resolved index) →
  k_call k < length (calls st) →
  (calls (resume k st) !! k_call k
   = Some (Throws (missing_namespace (locale (k_args k)) (namespace (k_args k))))
   ↔ (index !! namespace (k_args k) = None
      ∧ inherited (namespace (k_args k)) = false)
     ∨ index !! namespace (k_args k) = Some "")
  ∧ ((index !! namespace (k_args k) = None
      ∧ inherited (namespace (k_args k)) = false)
     ∨ index !! namespace (k_args k) = Some ""
     → gets (resume k st) = gets st ∧ phrases (resume k st) = phrases st)
  ∧ (index !! namespace (k_args k) = None →
     inherited (namespace (k_args k)) = true →
     calls (resume k st) !! k_call k = Some (Returns (length (phrase_jobs st)))
     ∧ gets (resume k st)
       = gets st ++ [request_for (k_args k) (shown (namespace (k_args k)))]).
Proof.
  intros Hinh Hidx Hlt. unfold resume, resume_index. cbn zeta.
  rewrite Hinh, Hidx. rewrite <- truthy_at_false.
  destruct (truthy_at index (namespace (k_args k))) eqn:Ht; cbn.
  - split_and!.
    + rewrite list_lookup_insert_eq by done. split; [|done]. intros [=].
    + done.
    + intros Hnone Hin. rewrite list_lookup_insert_eq by done.
      split; [done|]. unfold phrase_request, read. by rewrite Hnone, Hin.
  - split_and!.
    + by rewrite list_lookup_insert_eq.
    + done.
    + intros Hnone Hin. rewrite (truthy_at_None _ _ Hnone) in Ht. congruence.
Qed.

(** ** [load]: invariants of the event loop *)

Lemma index_state_Some st p s :
  index_state st p = Some s ↔ ∃ j, index_jobs st !! p = Some j ∧ i_state j = s.
Proof.
  unfold index_state. destruct (index_jobs st !! p) as [j|]; cbn.
  - split; [intros [= <-]; eauto | intros (j' & [= <-] & <-); done].
  - split; [done | intros (j' & [=] & _)].
Qed.

Lemma Inv_init : Inv init.
Proof.
  split; cbn.
  - intros loc p Hp. by rewrite lookup_empty in Hp.
  - intros p j Hj. by rewrite lookup_nil in Hj.
  - intros loc p Hp. by rewrite lookup_empty in Hp.
  - intros q j Hj. by rewrite lookup_nil in Hj.
  - intros k Hk. by apply not_elem_of_nil in Hk.
  - intros k Hk. by apply not_elem_of_nil in Hk.
Qed.

Lemma Inv_with_calls st f :
  (∀ cs, length cs ≤ length (f cs)) → Inv st → Inv (with_calls f st).
Proof.
  intros Hf [H0 H1 Ho H2 H3 Hw].
  split; cbn; [done | done | done | done | | done].
  intros k Hk. destruct (H3 k Hk) as [Hc Hs]. split; [|exact Hs].
  specialize (Hf (calls st)). lia.
Qed.

Lemma Inv_await st k :
  k_inherited k = false →
  k_call k ≤ length (calls st) →
  indexes st !! locale (k_args k) = Some (k_index k) →
  Inv st → Inv (await k st).
Proof.
  intros Hinh Hcall Hcache [H0 H1 Ho H2 H3 Hw].
  split; cbn; [done | done | done | done | |].
  - intros k' Hk'. rewrite length_app. cbn.
    assert (k' ∈ waiting st ++ microtasks st ∨ k' = k) as [Hold | ->].
    { revert Hk'.
      destruct (match index_state st (k_index k) with
                | Some p => settled p | None => false end);
        rewrite !elem_of_app, list_elem_of_singleton; tauto. }
    + destruct (H3 k' Hold) as [Hc Hs]. split; [lia | exact Hs].
    + split; [lia|]. rewrite Hinh. destruct (H0 _ _ Hcache) as [j Hj].
      exists (i_state j). split; [|done].
      apply index_state_Some. eauto.
  - intros k' Hk'.
    destruct (match index_state st (k_index k) with
              | Some p => settled p | None => false end); [by apply Hw|].
    apply elem_of_app in Hk' as [Hk' | ->%list_elem_of_singleton];
      [by apply Hw | done].
Qed.

Lemma Inv_await_member st k :
  k_inherited k = true →
  inherited (locale (k_args k)) = true →
  k_call k ≤ length (calls st) →
  Inv st → Inv (await_member k st).
Proof.
  intros Hinh Hloc Hcall [H0 H1 Ho H2 H3 Hw].
  split; cbn; [done | done | done | done | | done].
  intros k' Hk'. rewrite length_app. cbn.
  rewrite app_assoc in Hk'.
  apply elem_of_app in Hk' as [Hold | ->%list_elem_of_singleton].
  - destruct (H3 k' Hold) as [Hc Hs]. split; [lia | exact Hs].
  - split; [lia|]. by rewrite Hinh.
Qed.

Lemma index_state_app st p s js :
  index_state st p = Some s → i_state <$> (index_jobs st ++ js) !! p = Some s.
Proof.
  intros (ij & Hij & <-)%index_state_Some.
  by rewrite (lookup_app_l_Some _ _ _ _ Hij).
Qed.

Lemma Inv_start_index st a :
  indexes st !! locale a = None → inherited (locale a) = false →
  Inv st → Inv (start_index a st).2.
Proof.
  intros Hnone Hown [H0 H1 Ho H2 H3 Hw]. split; cbn.
  - intros loc p [[<- <-] | [Hne Hp]]%lookup_insert_Some.
    + by rewrite lookup_app_r, Nat.sub_diag.
    + destruct (H0 _ _ Hp) as [j Hj]. exists j. by apply lookup_app_l_Some.
  - intros p j Hj Hpend. apply lookup_app_Some in Hj as [Hj | [Hlen Hj]].
    + specialize (H1 p j Hj Hpend).
      rewrite lookup_insert_ne; [done | congruence].
    + apply list_lookup_singleton_Some in Hj as [Hp <-]. cbn.
      rewrite lookup_insert_eq. f_equal. lia.
  - intros loc p [[<- <-] | [Hne Hp]]%lookup_insert_Some;
      [done | by apply (Ho loc p)].
  - intros q j Hj.
    destruct (H2 q j Hj) as [[Hin (p & index & Hc & Hs & Ht)] | Hmem];
      [left | by right].
    split; [done|]. exists p, index. split_and!; [| |done].
    + rewrite lookup_insert_ne; [done | congruence].
    + by apply index_state_app.
  - intros k Hk. destruct (H3 k Hk) as [Hc Hs]. split; [done|].
    revert Hs. destruct (k_inherited k); intros Hs; [done|].
    destruct Hs as (s & Hs & Hcache). unfold awaits_cached. cbn.
    exists s. split.
    + by apply index_state_app.
    + intros Hnr. specialize (Hcache Hnr).
      rewrite lookup_insert_ne; [done | congruence].
  - done.
Qed.

Lemma Inv_load st a : Inv st → Inv (load a st).
Proof.
  intros HI. unfold load. cbn zeta.
  destruct (phrases st !! key (locale a) (namespace a)) as [q|].
  { apply Inv_with_calls; [|done]. intros cs. rewrite length_app. lia. }
  destruct (negb (truthy_at (manifest a) (locale a))).
  { apply Inv_with_calls; [|done]. intros cs. rewrite length_app. lia. }
  destruct (indexes st !! locale a) as [p|] eqn:Hcache.
  - by apply Inv_await.
  - destruct (inherited (locale a)) eqn:Hin.
    + by apply Inv_await_member.
    + pose proof (Inv_start_index st a Hcache Hin HI) as HI'.
      unfold start_index in *. cbn in *.
      apply Inv_await; cbn; [done | done | | done].
      by rewrite lookup_insert_eq.
Qed.

Lemma index_state_alter st p s q :
  i_state <$> alter (settle_job s) p (index_jobs st) !! q
  = if decide (p = q) then (fun _ => s) <$> index_jobs st !! p
    else index_state st q.
Proof.
  rewrite list_lookup_alter. case_decide; [subst|done].
  by destruct (index_jobs st !! q).
Qed.

Lemma Inv_settle_index st p j s cache :
  index_jobs st !! p = Some j → i_state j = Pending →
  (cache = indexes st ∧ ∃ index, s = Resolved index)
  ∨ (cache = delete (i_locale j) (indexes st) ∧ ∃ e, s = Rejected e) →
  Inv st → Inv (settle_index p s cache st).
Proof.
  intros Hj Hpend Hcase [H0 H1 Ho H2 H3 Hw].
  assert (Hsub : ∀ loc p', cache !! loc = Some p' → indexes st !! loc = Some p').
  { intros loc p'. destruct Hcase as [[-> _] | [-> _]]; [done|].
    by intros [_ ?]%lookup_delete_Some. }
  assert (Hkeep : ∀ loc p', indexes st !! loc = Some p' → p' ≠ p →
                            cache !! loc = Some p').
  { intros loc p' Hc Hne. destruct Hcase as [[-> _] | [-> _]]; [done|].
    apply lookup_delete_Some. split; [|done]. intros <-.
    specialize (H1 p j Hj Hpend). congruence. }
  split; cbn.
  - intros loc p' Hp'%Hsub. destruct (H0 _ _ Hp') as [j' Hj'].
    rewrite list_lookup_alter. case_decide; subst; rewrite Hj'; by eexists.
  - intros p' j' Hj' Hpend'. rewrite list_lookup_alter in Hj'.
    case_decide as Hpp; [subst p'|].
    + rewrite Hj in Hj'. cbn in Hj'. injection Hj' as <-. cbn in Hpend'.
      destruct Hcase as [[_ [index ->]] | [_ [e ->]]]; done.
    + apply Hkeep; [|done]. by apply H1.
  - intros loc p' Hp'%Hsub. by apply (Ho loc p').
  - intros q jq Hq.
    destruct (H2 q jq Hq) as [[Hin (p0 & index & Hc & Hs & Ht)] | Hmem];
      [left | by right].
    split; [done|].
    assert (p0 ≠ p) as Hne.
    { intros ->. apply index_state_Some in Hs as (j0 & Hj0 & Hst).
      congruence. }
    exists p0, index. split_and!; [by apply Hkeep | | done].
    unfold index_state. cbn. rewrite index_state_alter. by case_decide.
  - intros k Hk.
    assert (k ∈ waiting st ++ microtasks st) as Hold.
    { revert Hk. rewrite !elem_of_app, !list_elem_of_filter. tauto. }
    destruct (H3 k Hold) as [Hc Hs]. split; [done|].
    revert Hs. destruct (k_inherited k); intros Hs; [done|].
    destruct Hs as (s0 & Hs0 & Hcache).
    unfold awaits_cached, index_state. cbn. rewrite index_state_alter.
    case_decide as Hpk.
    + rewrite Hj. cbn. exists s. split; [done|]. intros Hnr.
      destruct Hcase as [[-> _] | [_ [e ->]]]; [|by destruct (Hnr e)].
      apply Hcache. intros e. rewrite <- Hpk in Hs0.
      apply index_state_Some in Hs0 as (j0 & Hj0 & <-). congruence.
    + exists s0. split; [done|]. intros Hnr. apply Hkeep; [by apply Hcache|].
      congruence.
  - intros k [_ Hk]%list_elem_of_filter. by apply Hw.
Qed.

Lemma Inv_respond_index st p r : Inv st → Inv (respond_index p r st).
Proof.
  intros HI. unfold respond_index.
  destruct (index_jobs st !! p) as [j|] eqn:Hj; [|done].
  destruct (i_state j) eqn:Hst; cbn; [|done|done].
  destruct (index_try r) as [err|index].
  - eapply Inv_settle_index; eauto.
  - eapply Inv_settle_index; eauto.
Qed.

Lemma Inv_respond_phrases st q r : Inv st → Inv (respond_phrases q r st).
Proof.
  intros HI. unfold respond_phrases.
  destruct (phrase_jobs st !! q) as [j|] eqn:Hj; [|done].
  destruct (settled (p_state j)); [done|].
  assert (∀ s cache, Inv (settle_phrases q s cache st)) as Hsettle.
  { intros s cache. destruct HI as [H0 H1 Ho H2 H3 Hw].
    split; cbn; [done | done | done | | done | done].
    intros q' j' Hj'. rewrite list_lookup_alter in Hj'.
    case_decide; [subst q'|by apply (H2 q')].
    rewrite Hj in Hj'. cbn in Hj'. injection Hj' as <-. cbn.
    by apply (H2 q). }
  destruct (phrase_try r); apply Hsettle.
Qed.

Lemma Inv_start_phrases_with st k req :
  k_call k < length (calls st) →
  (inherited (locale (k_args k)) = false
   ∧ ∃ p index,
       indexes st !! locale (k_args k) = Some p
       ∧ index_state st p = Some (Resolved index)
       ∧ truthy_at index (namespace (k_args k)) = true)
  ∨ (inherited (locale (k_args k)) = true
     ∧ ∃ text,
         read_member (locale (k_args k)) (namespace (k_args k))
         = LTruthy text) →
  Inv st → Inv (start_phrases_with k req st).
Proof.
  intros Hcall Hnew [H0 H1 Ho H2 H3 Hw].
  split; cbn; [done | done | done | | | done].
  - intros q j [Hq | [_ Hq]]%lookup_app_Some; [by apply (H2 q)|].
    by apply list_lookup_singleton_Some in Hq as [_ <-].
  - intros k' Hk'. rewrite length_insert. by apply H3.
Qed.

Lemma Inv_resume st k :
  k_call k < length (calls st) →
  (if k_inherited k then inherited (locale (k_args k)) = true
   else ∀ index, index_state st (k_index k) = Some (Resolved index) →
                 indexes st !! locale (k_args k) = Some (k_index k)) →
  Inv st → Inv (resume k st).
Proof.
  intros Hcall Hcache HI. unfold resume. revert Hcache.
  destruct (k_inherited k); intros Hcache.
  - unfold resume_member. cbn zeta.
    destruct (read_member (locale (k_args k)) (namespace (k_args k)))
      as [e| |text] eqn:Hm.
    + apply Inv_with_calls; [|done]. intros cs. by rewrite length_insert.
    + apply Inv_with_calls; [|done]. intros cs. by rewrite length_insert.
    + apply Inv_start_phrases_with; [done | | done]. right. eauto.
  - destruct (index_state st (k_index k)) as [[|index|e]|] eqn:Hs; [done| |..].
    + unfold resume_index. cbn zeta.
      destruct (truthy_at index (namespace (k_args k))) eqn:Ht; cbn.
      * apply Inv_start_phrases_with; [done | | done]. left.
        pose proof (Hcache index eq_refl) as Hc.
        split; [by apply (inv_own st HI _ _ Hc)|].
        by exists (k_index k), index.
      * apply Inv_with_calls; [|done]. intros cs. by rewrite length_insert.
    + apply Inv_with_calls; [|done]. intros cs. by rewrite length_insert.
    + done.
Qed.

Lemma Inv_step st ev : Inv st → Inv (step st ev).
Proof.
  intros HI. destruct ev as [a | p r | q r |]; cbn.
  - by apply Inv_load.
  - by apply Inv_respond_index.
  - by apply Inv_respond_phrases.
  - destruct (microtasks st) as [|k rest] eqn:Hq; [done|].
    destruct (inv_cont st HI k) as [Hc Hs].
    { rewrite Hq. apply elem_of_app. right. apply elem_of_cons. by left. }
    apply Inv_resume; cbn; [done | |].
    + revert Hs. destruct (k_inherited k); intros Hs; [done|].
      destruct Hs as (s & Hs & Hcache). intros index Hidx. apply Hcache. intros e.
      unfold index_state in *. cbn in *. congruence.
    + destruct HI as [H0 H1 Ho H2 H3 Hw].
      split; cbn; [done | done | done | done | | done].
      intros k' Hk'. apply H3. rewrite Hq in Hk' |- *. cbn in Hk'.
      revert Hk'. rewrite !elem_of_app, elem_of_cons. tauto.
Qed.

Lemma Inv_run_from st evs : Inv st → Inv (run_from st evs).
Proof.
  revert st. induction evs as [|ev evs IH]; intros st HI; [done|].
  cbn. apply IH. by apply Inv_step.
Qed.

Lemma Inv_run evs : Inv (run evs).
Proof. apply Inv_run_from, Inv_init. Qed.

(** ** [load]: no cache entry is a rejected promise *)

Lemma Live_init : Live init.
Proof.
  split; cbn; intros ? ? H0; by rewrite lookup_empty in H0.
Qed.

Lemma Live_ext st st' :
  indexes st' = indexes st → phrases st' = phrases st →
  index_jobs st' = index_jobs st → phrase_jobs st' = phrase_jobs st →
  Live st → Live st'.
Proof.
  intros E1 E2 E3 E4 [L1 L2]. split; rewrite ?E1, ?E2, ?E3, ?E4; done.
Qed.

Lemma Live_start_index st a : Live st → Live (start_index a st).2.
Proof.
  intros [L1 L2]. split; cbn; [|done].
  intros loc p [[<- <-] | [Hne Hp]]%lookup_insert_Some.
  - eexists. rewrite lookup_app_r, Nat.sub_diag by done. done.
  - destruct (L1 _ _ Hp) as (j & Hj & Hl & Hs). exists j.
    split; [by apply lookup_app_l_Some | done].
Qed.

Lemma Live_load st a : Live st → Live (load a st).
Proof.
  intros HL. unfold load. cbn zeta.
  destruct (phrases st !! key (locale a) (namespace a));
    [by apply (Live_ext st)|].
  destruct (negb (truthy_at (manifest a) (locale a)));
    [by apply (Live_ext st)|].
  destruct (indexes st !! locale a).
  - by apply (Live_ext st).
  - destruct (inherited (locale a)).
    + by apply (Live_ext st).
    + by apply (Live_ext (start_index a st).2), Live_start_index.
Qed.

Lemma Live_respond_index st p r : Live st → Live (respond_index p r st).
Proof.
  intros HL. unfold respond_index.
  destruct (index_jobs st !! p) as [j|] eqn:Hj; [|done].
  destruct (settled (i_state j)); [done|].
  destruct HL as [L1 L2].
  destruct (index_try r) as [err|index]; split; cbn; try done.
  - intros loc p' [Hne Hp']%lookup_delete_Some.
    destruct (L1 _ _ Hp') as (j' & Hj' & Hl & Hs).
    rewrite list_lookup_alter. case_decide; [subst p'|by exists j'].
    congruence.
  - intros loc p' Hp'. destruct (L1 _ _ Hp') as (j' & Hj' & Hl & Hs).
    rewrite list_lookup_alter. case_decide; [subst p'|by exists j'].
    rewrite Hj'. eexists. split; [done|]. done.
Qed.

Lemma Live_respond_phrases st q r : Live st → Live (respond_phrases q r st).
Proof.
  intros HL. unfold respond_phrases.
  destruct (phrase_jobs st !! q) as [j|] eqn:Hj; [|done].
  destruct (settled (p_state j)); [done|].
  destruct HL as [L1 L2].
  destruct (phrase_try r) as [err|resource]; split; cbn; try done.
  - intros id q' [Hne Hq']%lookup_delete_Some.
    destruct (L2 _ _ Hq') as (j' & Hj' & Hid & Hs).
    rewrite list_lookup_alter. case_decide; [subst q'|by exists j'].
    congruence.
  - intros id q' Hq'. destruct (L2 _ _ Hq') as (j' & Hj' & Hid & Hs).
    rewrite list_lookup_alter. case_decide; [subst q'|by exists j'].
    rewrite Hj'. eexists. split; [done|]. done.
Qed.

Lemma Live_start_phrases_with st k req :
  Live st → Live (start_phrases_with k req st).
Proof.
  intros [L1 L2]. split; cbn; [done|].
  intros id q [[<- <-] | [Hne Hq]]%lookup_insert_Some.
  - eexists. rewrite lookup_app_r, Nat.sub_diag by done. done.
  - destruct (L2 _ _ Hq) as (j & Hj & Hid & Hs). exists j.
    split; [by apply lookup_app_l_Some | done].
Qed.

Lemma Live_resume st k : Live st → Live (resume k st).
Proof.
  intros HL. unfold resume. destruct (k_inherited k).
  - unfold resume_member. cbn zeta.
    destruct (read_member (locale (k_args k)) (namespace (k_args k)));
      [by apply (Live_ext st) | by apply (Live_ext st) |].
    by apply Live_start_phrases_with.
  - destruct (index_state st (k_index k)) as [[|index|e]|]; [done| |..].
    + unfold resume_index. cbn zeta.
      destruct (negb (truthy_at index (namespace (k_args k))));
        [by apply (Live_ext st)|].
      by apply Live_start_phrases_with.
    + by apply (Live_ext st).
    + done.
Qed.

Lemma Live_step st ev : Live st → Live (Loader.step st ev).
Proof.
  intros HL. destruct ev as [a | p r | q r |]; cbn.
  - by apply Live_load.
  - by apply Live_respond_index.
  - by apply Live_respond_phrases.
  - destruct (microtasks st); [done|].
    by apply Live_resume, (Live_ext st).
Qed.

Lemma Live_run evs : Live (run evs).
Proof.
  unfold run, run_from. generalize init Live_init.
  induction evs as [|ev evs IH]; intros st HL; [done|].
  cbn. apply IH. by apply Live_step.
Qed.

(** ** [load]: failures, eviction and retry *)

(** X2: for the status codes of HTTP, the test on the first character of
    [String(res.status)] accepts the 2xx codes and no other. *)
Lemma status_is_2_http (status : N) :
  (100 ≤ status ≤ 599)%N →
  status_is_2 status = bool_decide (200 ≤ status ≤ 299)%N.
Proof.
  intros Hrange.
  assert (forallb (fun n => bool_decide
            (status_is_2 (N.of_nat n)
             = bool_decide (200 ≤ N.of_nat n ≤ 299)%N)) (seq 100 500) = true)
    as Hall by (vm_compute; reflexivity).
  rewrite forallb_forall in Hall.
  specialize (Hall (N.to_nat status)).
  rewrite N2Nat.id in Hall. apply bool_decide_eq_true in Hall; [done|].
  apply in_seq. lia.
Qed.

(** The ways the index executor fails: the fetch rejects (network error,
    abort), the status is not accepted, the body does not parse, or it is
    not a record of strings. *)
Lemma index_try_fails r err :
  index_try r = inl err ↔
  r = FetchFails err
  ∨ ∃ status body, r = FetchResponds status body
      ∧ (status_is_2 status = false ∧ err = new_Error "Failed to load"
         ∨ status_is_2 status = true
           ∧ (body = BodyFails err
              ∨ ∃ v, body = BodyJson v ∧ isRecordOfStrings v = None
                     ∧ err = new_Error "Invalid format")).
Proof.
  unfold index_try.
  destruct r as [e | status [e | v]];
    [| destruct (status_is_2 status) eqn:Hs; cbn ..];
    try destruct (isRecordOfStrings v) as [index|] eqn:Hv;
    (split; [intros ?; simplify_eq; eauto 12 | ]).
  all: intros [? | (? & ? & ? & [[? ?] | [? [? | (? & ? & ? & ?)]]])];
    simplify_eq; try done; congruence.
Qed.

Lemma start_phrases_with_frame k req st :
  index_jobs (start_phrases_with k req st) = index_jobs st
  ∧ indexes (start_phrases_with k req st) = indexes st
  ∧ microtasks (start_phrases_with k req st) = microtasks st
  ∧ length (calls (start_phrases_with k req st)) = length (calls st)
  ∧ length (phrase_jobs st) ≤ length (phrase_jobs (start_phrases_with k req st))
  ∧ length (gets st) ≤ length (gets (start_phrases_with k req st)).
Proof.
  cbn. rewrite length_insert, !length_app. split_and!; try done; lia.
Qed.

Lemma resume_frame k st :
  index_jobs (resume k st) = index_jobs st
  ∧ indexes (resume k st) = indexes st
  ∧ microtasks (resume k st) = microtasks st
  ∧ length (calls (resume k st)) = length (calls st)
  ∧ length (phrase_jobs st) ≤ length (phrase_jobs (resume k st))
  ∧ length (gets st) ≤ length (gets (resume k st)).
Proof.
  unfold resume. destruct (k_inherited k).
  - unfold resume_member. cbn zeta.
    destruct (read_member (locale (k_args k)) (namespace (k_args k)));
      [cbn; by rewrite length_insert .. | apply start_phrases_with_frame].
  - destruct (index_state st (k_index k)) as [[|index|e]|]; [done| |..].
    + unfold resume_index. cbn zeta.
      destruct (negb (truthy_at index (namespace (k_args k))));
        [cbn; by rewrite length_insert | apply start_phrases_with_frame].
    + cbn. rewrite length_insert. done.
    + done.
Qed.

(** Draining a queue that ends with [k] runs [k] last, in a state with the
    same index promises and cache and as many calls. *)
Lemma drain_last ms : ∀ st k,
  microtasks st = ms ++ [k] →
  ∃ s1, run_from st (replicate (S (length ms)) Microtask) = resume k s1
        ∧ index_jobs s1 = index_jobs st
        ∧ indexes s1 = indexes st
        ∧ length (calls s1) = length (calls st)
        ∧ length (phrase_jobs st) ≤ length (phrase_jobs s1)
        ∧ length (gets st) ≤ length (gets s1).
Proof.
  induction ms as [|k0 ms IH]; intros st k Hq.
  - exists (pop st). cbn. rewrite Hq. done.
  - cbn [length replicate run_from foldl]. cbn [step]. rewrite Hq. cbn [app].
    destruct (resume_frame k0 (pop st)) as (F1 & F2 & F3 & F4 & F5 & F6).
    destruct (IH (resume k0 (pop st)) k) as (s1 & Hrun & G1 & G2 & G3 & G4 & G5).
    { rewrite F3. cbn. by rewrite Hq. }
    exists s1. split; [exact Hrun|]. cbn in *.
    split_and!; try congruence; lia.
Qed.

(** A call that finds neither the phrase set nor the index of its locale in
    the caches issues the index GET at once, unless its locale names an
    inherited member. *)
Lemma load_fetches_index a st :
  phrases st !! key (locale a) (namespace a) = None →
  truthy_at (manifest a) (locale a) = true →
  indexes st !! locale a = None →
  inherited (locale a) = false →
  gets (load a st) = gets st ++ [index_request a]
  ∧ indexes (load a st) !! locale a = Some (length (index_jobs st))
  ∧ index_state (load a st) (length (index_jobs st)) = Some Pending.
Proof.
  intros Hp Hm Hi Hin. unfold load. cbn zeta. rewrite Hp, Hm, Hi, Hin. cbn.
  split_and!; [done | by rewrite lookup_insert_eq |].
  unfold index_state. cbn. by rewrite lookup_app_r, Nat.sub_diag.
Qed.

(** A call whose locale names an inherited member never issues a GET
    itself: [indexes[locale]] is truthy for it. *)
Lemma load_inherited_no_get a st :
  inherited (locale a) = true →
  gets (load a st) = gets st ∧ indexes (load a st) = indexes st
  ∧ index_jobs (load a st) = index_jobs st.
Proof.
  intros Hin. unfold load. cbn zeta.
  destruct (phrases st !! key (locale a) (namespace a)); [done|].
  destruct (negb (truthy_at (manifest a) (locale a))); [done|].
  destruct (indexes st !! locale a); [done|]. by rewrite Hin.
Qed.

(** The last continuation of the queue is the call [k] just made: it runs
    last, and when it makes a phrase promise, that is the call's result. *)
Lemma drain_starts_phrases st0 st k req :
  microtasks st = microtasks st0 ++ [k] →
  index_jobs st = index_jobs st0 →
  calls st = calls st0 ++ [Suspended] →
  phrase_jobs st = phrase_jobs st0 →
  gets st = gets st0 →
  k_call k = length (calls st0) →
  (∀ s1, index_jobs s1 = index_jobs st →
         resume k s1 = start_phrases_with k req s1) →
  ∃ q, calls (drain st) !! length (calls st0) = Some (Returns q)
       ∧ length (phrase_jobs st0) ≤ q
       ∧ phrase_state (drain st) q = Some Pending
       ∧ last (gets (drain st)) = Some req
       ∧ length (gets st0) < length (gets (drain st)).
Proof.
  intros Hq Hjobs Hcalls Hphr Hgets Hcall Hres.
  destruct (drain_last (microtasks st0) st k Hq)
    as (s1 & Hrun & G1 & G2 & G3 & G4 & G5).
  unfold drain. rewrite Hq, length_app, Nat.add_1_r, Hrun.
  rewrite Hcalls, length_app in G3. cbn in G3.
  rewrite Hphr in G4. rewrite Hgets in G5.
  rewrite (Hres s1 G1). cbn. rewrite Hcall.
  exists (length (phrase_jobs s1)). split_and!.
  - rewrite list_lookup_insert_eq; [done | lia].
  - done.
  - unfold phrase_state. cbn. by rewrite lookup_app_r, Nat.sub_diag.
  - by rewrite last_snoc.
  - rewrite length_app. cbn. lia.
Qed.

(** A call that finds the index of its locale resolved, with the namespace
    listed, returns a promise made for it, whose GET is the last issued. *)
Lemma load_fetches_phrases a st p index :
  phrases st !! key (locale a) (namespace a) = None →
  truthy_at (manifest a) (locale a) = true →
  indexes st !! locale a = Some p →
  index_state st p = Some (Resolved index) →
  truthy_at index (namespace a) = true →
  ∃ q, calls (drain (load a st)) !! length (calls st) = Some (Returns q)
       ∧ length (phrase_jobs st) ≤ q
       ∧ phrase_state (drain (load a st)) q = Some Pending
       ∧ last (gets (drain (load a st))) = Some (phrase_request a index)
       ∧ length (gets st) < length (gets (drain (load a st))).
Proof.
  intros Hp Hm Hi Hs Ht.
  set (k := {| k_call := length (calls st); k_index := p;
               k_inherited := false; k_args := a |}).
  assert (load a st = await k st) as ->.
  { unfold load. cbn zeta. by rewrite Hp, Hm, Hi. }
  apply (drain_starts_phrases st (await k st) k); try done.
  - unfold await. cbn. by rewrite Hs.
  - intros s1 G1. cbn in G1. unfold resume, resume_index, index_state. cbn.
    rewrite G1. fold (index_state st p). by rewrite Hs, Ht.
Qed.

(** The same for a call whose locale names an inherited member that has the
    namespace as a truthy property. *)
Lemma load_fetches_phrases_member a st text :
  phrases st !! key (locale a) (namespace a) = None →
  truthy_at (manifest a) (locale a) = true →
  indexes st !! locale a = None →
  inherited (locale a) = true →
  read_member (locale a) (namespace a) = LTruthy text →
  ∃ q, calls (drain (load a st)) !! length (calls st) = Some (Returns q)
       ∧ length (phrase_jobs st) ≤ q
       ∧ phrase_state (drain (load a st)) q = Some Pending
       ∧ last (gets (drain (load a st))) = Some (request_for a text)
       ∧ length (gets st) < length (gets (drain (load a st))).
Proof.
  intros Hp Hm Hi Hin Hmem.
  set (k := {| k_call := length (calls st); k_index := 0;
               k_inherited := true; k_args := a |}).
  assert (load a st = await_member k st) as ->.
  { unfold load. cbn zeta. by rewrite Hp, Hm, Hi, Hin. }
  apply (drain_starts_phrases st (await_member k st) k); try done.
  intros s1 G1. unfold resume, resume_member. cbn. by rewrite Hmem.
Qed.

(** A phrase GET for an inherited member is the phrase GET for an index
    that lists the text. *)
Lemma request_for_phrase_request a text :
  request_for a text = phrase_request a {[ namespace a := text ]}.
Proof. unfold phrase_request, read. by rewrite lookup_singleton_eq. Qed.

(** C4: in every reachable state, when the GET of a pending index or phrase
    promise fails (the fetch rejects, the status does not start with 2, the
    body does not parse or has the wrong shape), the executor removes the
    cache entry of its key and rejects the promise in one step, before any
    suspended caller runs; a later call of [load] for that key then issues a
    new GET: the index GET at once (when the phrase cache has nothing under
    the call's key), or, for a failed phrase set, a GET for a brand-new
    pending phrase promise as soon as the call's continuation has run.  No
    cache entry of a reachable state is a rejected promise. *)
Theorem failed_load_evicted_then_refetched (evs : list Event) :
  (∀ p j r err,
     index_jobs (run evs) !! p = Some j → i_state j = Pending →
     index_try r = inl err →
     let st' := respond_index p r (run evs) in
     indexes st' !! i_locale j = None
     ∧ index_state st' p = Some (Rejected (index_rejection (i_locale j) err))
     ∧ calls st' = calls (run evs)
     ∧ ∀ a, locale a = i_locale j →
            truthy_at (manifest a) (locale a) = true →
            phrases st' !! key (locale a) (namespace a) = None →
            gets (load a st') = gets st' ++ [index_request a]
            ∧ indexes (load a st') !! locale a = Some (length (index_jobs st'))
            ∧ index_state (load a st') (length (index_jobs st')) = Some Pending)
  ∧ (∀ q j r err,
       phrase_jobs (run evs) !! q = Some j → p_state j = Pending →
       phrase_try r = inl err →
       let st' := respond_phrases q r (run evs) in
       phrases st' !! key (p_locale j) (p_namespace j) = None
       ∧ phrase_state st' q
         = Some (Rejected (phrase_rejection (p_locale j) (p_namespace j) err))
       ∧ calls st' = calls (run evs)
       ∧ ∀ a, locale a = p_locale j → namespace a = p_namespace j →
              truthy_at (manifest a) (locale a) = true →
              ∃ index q',
                calls (drain (load a st')) !! length (calls st')
                = Some (Returns q')
                ∧ length (phrase_jobs st') ≤ q'
                ∧ phrase_state (drain (load a st')) q' = Some Pending
                ∧ last (gets (drain (load a st')))
                  = Some (phrase_request a index)
                ∧ length (gets st') < length (gets (drain (load a st'))))
  ∧ (∀ loc p, indexes (run evs) !! loc = Some p →
              ∃ s, index_state (run evs) p = Some s ∧ ∀ e, s ≠ Rejected e)
  ∧ (∀ id q, phrases (run evs) !! id = Some q →
             ∃ s, phrase_state (run evs) q = Some s ∧ ∀ e, s ≠ Rejected e).
Proof.
  pose proof (Inv_run evs) as HI. pose proof (Live_run evs) as HL.
  set (st := run evs) in *. split_and!.
  - intros p j r err Hj Hpend Herr st'.
    assert (st' = settle_index p (Rejected (index_rejection (i_locale j) err))
                    (delete (i_locale j) (indexes st)) st) as Hst'.
    { unfold st', respond_index. by rewrite Hj, Hpend, Herr. }
    assert (indexes st' !! i_locale j = None) as Hgone.
    { rewrite Hst'. cbn. apply lookup_delete_eq. }
    split_and!.
    + done.
    + rewrite Hst'. unfold index_state. cbn.
      rewrite list_lookup_alter_eq, Hj. done.
    + by rewrite Hst'.
    + intros a Hloc Hm Hp. apply load_fetches_index; [done | done | |].
      * by rewrite Hloc.
      * rewrite Hloc.
        apply (inv_own st HI _ p), (inv_pending_cached st HI p j Hj Hpend).
  - intros q j r err Hj Hpend Herr st'.
    assert (st' = settle_phrases q
                    (Rejected (phrase_rejection (p_locale j) (p_namespace j) err))
                    (delete (key (p_locale j) (p_namespace j)) (phrases st)) st)
      as Hst'.
    { unfold st', respond_phrases. by rewrite Hj, Hpend, Herr. }
    assert (phrases st' !! key (p_locale j) (p_namespace j) = None) as Hgone.
    { rewrite Hst'. cbn. apply lookup_delete_eq. }
    split_and!.
    + done.
    + rewrite Hst'. unfold phrase_state. cbn.
      rewrite list_lookup_alter_eq, Hj. done.
    + by rewrite Hst'.
    + intros a Hloc Hns Hm.
      destruct (inv_phrase_index st HI q j Hj)
        as [[Hin (p & index & Hc & Hs & Ht)] | [Hin [text Hmem]]].
      * exists index.
        apply (load_fetches_phrases a st' p index).
        -- by rewrite Hloc, Hns.
        -- done.
        -- rewrite Hloc, Hst'. done.
        -- rewrite Hst'. done.
        -- by rewrite Hns.
      * exists {[ namespace a := text ]}.
        rewrite <- request_for_phrase_request.
        apply (load_fetches_phrases_member a st' text).
        -- by rewrite Hloc, Hns.
        -- done.
        -- rewrite Hloc, Hst'. cbn.
           destruct (indexes st !! p_locale j) as [p|] eqn:Hi; [|done].
           pose proof (inv_own st HI _ _ Hi). congruence.
        -- by rewrite Hloc.
        -- by rewrite Hloc, Hns.
  - intros loc p (j & Hj & _ & Hs)%(live_index st HL).
    exists (i_state j). unfold index_state. by rewrite Hj.
  - intros id q (j & Hj & _ & Hs)%(live_phrases st HL).
    exists (p_state j). unfold phrase_state. by rewrite Hj.
Qed.

(** ** [load]: cancellation *)

Lemma load_cached_index_no_get a st p :
  indexes st !! locale a = Some p →
  gets (load a st) = gets st ∧ index_jobs (load a st) = index_jobs st.
Proof.
  intros Hi. unfold load. cbn zeta.
  destruct (phrases st !! key (locale a) (namespace a)); [done|].
  destruct (negb (truthy_at (manifest a) (locale a))); [done|].
  by rewrite Hi.
Qed.

Lemma index_rejection_abort loc err :
  is_abort err = true → index_rejection loc err = err.
Proof. intros H0. unfold index_rejection. by rewrite H0. Qed.

Lemma phrase_rejection_abort loc ns err :
  is_abort err = true → phrase_rejection loc ns err = err.
Proof. intros H0. unfold phrase_rejection. by rewrite H0. Qed.

(** Only an [AbortError] is passed on as one: every other failure is
    wrapped in a plain [Error]. *)
Lemma index_rejection_name loc err :
  is_abort (index_rejection loc err) = is_abort err.
Proof. unfold index_rejection. by destruct (is_abort err) eqn:H0. Qed.

Lemma phrase_rejection_name loc ns err :
  is_abort (phrase_rejection loc ns err) = is_abort err.
Proof. unfold phrase_rejection. by destruct (is_abort err) eqn:H0. Qed.

(** C3, as the code has it: when the GET of a pending index or phrase
    promise is aborted, the executor leaves both cache tables and the queue
    of continuations exactly as any other failure of that GET does: the
    entry of its key is evicted.  The promise is rejected with the
    [AbortError] itself, so every call that awaits it, cancelled or not,
    throws that [AbortError]; any other failure is rejected with an error
    that is not an [AbortError].  The index GET carries the token of the
    call that makes the entry; a call that finds the index of its locale in
    the cache issues no GET: its token is attached to nothing the others
    await.  A call makes the entry when [indexes[locale]] is falsy: the
    table has no entry for the locale and the locale is not the name of an
    inherited member, for which no GET is ever issued. *)
Theorem abort_evicts_like_any_failure (evs : list Event) :
  (∀ p j r r' err err',
     index_jobs (run evs) !! p = Some j → i_state j = Pending →
     index_try r = inl err → is_abort err = true →
     index_try r' = inl err' →
     let st1 := respond_index p r (run evs) in
     let st2 := respond_index p r' (run evs) in
     indexes st1 = indexes st2 ∧ phrases st1 = phrases st2
     ∧ waiting st1 = waiting st2 ∧ microtasks st1 = microtasks st2
     ∧ indexes st1 !! i_locale j = None
     ∧ index_state st1 p = Some (Rejected err)
     ∧ is_abort (index_rejection (i_locale j) err') = is_abort err'
     ∧ ∀ k, k ∈ waiting (run evs) → k_index k = p →
            k ∈ microtasks st1
            ∧ calls (resume k st1) !! k_call k = Some (Throws err))
  ∧ (∀ q j r r' err err',
       phrase_jobs (run evs) !! q = Some j → p_state j = Pending →
       phrase_try r = inl err → is_abort err = true →
       phrase_try r' = inl err' →
       let st1 := respond_phrases q r (run evs) in
       let st2 := respond_phrases q r' (run evs) in
       indexes st1 = indexes st2 ∧ phrases st1 = phrases st2
       ∧ waiting st1 = waiting st2 ∧ microtasks st1 = microtasks st2
       ∧ phrases st1 !! key (p_locale j) (p_namespace j) = None
       ∧ phrase_state st1 q = Some (Rejected err)
       ∧ is_abort (phrase_rejection (p_locale j) (p_namespace j) err')
         = is_abort err')
  ∧ (∀ a p, indexes (run evs) !! locale a = Some p →
            gets (load a (run evs)) = gets (run evs))
  ∧ (∀ a, phrases (run evs) !! key (locale a) (namespace a) = None →
          truthy_at (manifest a) (locale a) = true →
          indexes (run evs) !! locale a = None →
          inherited (locale a) = false →
          gets (load a (run evs)) = gets (run evs) ++ [index_request a]
          ∧ req_signal (index_request a) = signal a)
  ∧ (∀ a, inherited (locale a) = true →
          gets (load a (run evs)) = gets (run evs)).
Proof.
  pose proof (Inv_run evs) as HI. set (st := run evs) in *. split_and!.
  - intros p j r r' err err' Hj Hpend Herr Habort Herr' st1 st2.
    unfold st1, st2, respond_index. rewrite Hj, Hpend, Herr, Herr'. cbn.
    rewrite (index_rejection_abort _ _ Habort).
    split_and!; try done.
    + apply lookup_delete_eq.
    + unfold index_state. cbn. by rewrite list_lookup_alter_eq, Hj.
    + apply index_rejection_name.
    + intros k Hk Hkp. split.
      * apply elem_of_app. right. apply list_elem_of_filter. split; [|done].
        unfold awaits. by apply bool_decide_eq_true.
      * destruct (inv_cont st HI k) as [Hc _].
        { apply elem_of_app. by left. }
        unfold resume. rewrite (inv_waiting st HI k Hk).
        unfold index_state. cbn.
        rewrite Hkp, list_lookup_alter_eq, Hj. cbn.
        by rewrite list_lookup_insert_eq.
  - intros q j r r' err err' Hj Hpend Herr Habort Herr' st1 st2.
    unfold st1, st2, respond_phrases. rewrite Hj, Hpend, Herr, Herr'. cbn.
    rewrite (phrase_rejection_abort _ _ _ Habort).
    split_and!; try done.
    + apply lookup_delete_eq.
    + unfold phrase_state. cbn. by rewrite list_lookup_alter_eq, Hj.
    + apply phrase_rejection_name.
  - intros a p Hi. by apply (load_cached_index_no_get a st p).
  - intros a Hp Hm Hi Hin. split; [|done].
    by apply (load_fetches_index a st Hp Hm Hi Hin).
  - intros a Hin. by apply load_inherited_no_get.
Qed.

(** ** [load]: concurrent calls for one pair *)

(** C1, what the code does: two calls for [en]/['common'] are issued
    before the index arrives.  One index GET is performed, but after the
    index promise resolves each call makes a phrase promise of its own, the
    second overwriting the first in the cache: two phrase-set GETs are
    performed and the two callers follow different promises, which settle to
    whatever their own GET brings. *)
Theorem concurrent_loads_fetch_phrases_twice :
  index_gets
    (run (Scenario.two_callers
            ++ [IndexResponse 0 (Scenario.ok Scenario.index_en);
                Microtask; Microtask]))
  = [{| url := "/i18n/en/idx-en.json"; req_signal := Some 1 |}]
  ∧ phrase_gets
      (run (Scenario.two_callers
              ++ [IndexResponse 0 (Scenario.ok Scenario.index_en);
                  Microtask; Microtask]))
    = [{| url := "/i18n/en/common-en.json"; req_signal := Some 1 |};
       {| url := "/i18n/en/common-en.json"; req_signal := Some 2 |}]
  ∧ calls
      (run (Scenario.two_callers
              ++ [IndexResponse 0 (Scenario.ok Scenario.index_en);
                  Microtask; Microtask]))
    = [Returns 0; Returns 1]
  ∧ result
      (run (Scenario.two_callers
              ++ [IndexResponse 0 (Scenario.ok Scenario.index_en);
                  Microtask; Microtask;
                  PhraseResponse 0 (Scenario.ok Scenario.phrases_en);
                  PhraseResponse 1 (Scenario.ok Scenario.phrases_en')])) 0
    = Resolved Scenario.phrases_en
  ∧ result
      (run (Scenario.two_callers
              ++ [IndexResponse 0 (Scenario.ok Scenario.index_en);
                  Microtask; Microtask;
                  PhraseResponse 0 (Scenario.ok Scenario.phrases_en);
                  PhraseResponse 1 (Scenario.ok Scenario.phrases_en')])) 1
    = Resolved Scenario.phrases_en'.
Proof. vm_compute. done. Qed.

(** The step after [await indexes[locale]] never looks at the phrase cache:
    whatever [phrases] holds for the key, a resumed call whose index lists
    the namespace issues a phrase GET and overwrites the cache entry. *)
Lemma resume_always_fetches k st index :
  k_inherited k = false →
  index_state st (k_index k) = Some (Resolved index) →
  truthy_at index (namespace (k_args k)) = true →
  phrase_gets (resume k st)
  = phrase_gets st ++ [phrase_request (k_args k) index]
  ∧ phrases (resume k st) !! key (locale (k_args k)) (namespace (k_args k))
    = Some (length (phrase_jobs st)).
Proof.
  intros Hinh Hs Ht. unfold resume, resume_index. cbn zeta.
  rewrite Hinh, Hs, Ht. cbn.
  unfold phrase_gets. cbn. rewrite fmap_app. split; [done|].
  apply lookup_insert_eq.
Qed.

(** X1: the index table does deduplicate: a call that finds an index promise
    for its locale, pending or not, issues no GET, and in every reachable
    state the pending index promises of one locale are one promise, the
    cached one. *)
Lemma index_fetch_is_shared (evs : list Event) :
  (∀ a p, indexes (run evs) !! locale a = Some p →
          gets (load a (run evs)) = gets (run evs))
  ∧ (∀ p p' j j',
       index_jobs (run evs) !! p = Some j → i_state j = Pending →
       index_jobs (run evs) !! p' = Some j' → i_state j' = Pending →
       i_locale j = i_locale j' → p = p').
Proof.
  pose proof (Inv_run evs) as HI. split.
  - intros a p Hi. by apply (load_cached_index_no_get a _ p).
  - intros p p' j j' Hj Hp Hj' Hp' Hloc.
    pose proof (inv_pending_cached _ HI p j Hj Hp) as H1.
    pose proof (inv_pending_cached _ HI p' j' Hj' Hp') as H2.
    congruence.
Qed.

(** X3: an index that has loaded stays in the cache: no later event evicts
    or changes it. *)
Lemma resolved_index_stays_cached (evs : list Event) (ev : Event) loc p index :
  indexes (run evs) !! loc = Some p →
  index_state (run evs) p = Some (Resolved index) →
  indexes (Loader.step (run evs) ev) !! loc = Some p
  ∧ index_state (Loader.step (run evs) ev) p = Some (Resolved index).
Proof.
  pose proof (Inv_run evs) as HI. set (st := run evs) in *.
  intros Hc Hs. destruct ev as [a | p' r | q r |]; cbn.
  - unfold load. cbn zeta.
    destruct (phrases st !! key (locale a) (namespace a)); [done|].
    destruct (negb (truthy_at (manifest a) (locale a))); [done|].
    destruct (indexes st !! locale a) as [p0|] eqn:Ha; [done|].
    destruct (inherited (locale a)); [done|].
    cbn. split.
    + rewrite lookup_insert_ne; [done | congruence].
    + by apply index_state_app.
  - unfold respond_index.
    destruct (index_jobs st !! p') as [j'|] eqn:Hj'; [|done].
    destruct (i_state j') eqn:Hst'; cbn; [|done|done].
    assert (p' ≠ p) as Hne.
    { intros ->. apply index_state_Some in Hs as (j0 & Hj0 & Hst0).
      congruence. }
    destruct (index_try r) as [err|index']; cbn.
    + split.
      * apply lookup_delete_Some. split; [|done]. intros Hloc.
        pose proof (inv_pending_cached st HI p' j' Hj' Hst') as Hp'.
        congruence.
      * unfold index_state. cbn. rewrite index_state_alter. by case_decide.
    + split; [done|].
      unfold index_state. cbn. rewrite index_state_alter. by case_decide.
  - unfold respond_phrases.
    destruct (phrase_jobs st !! q) as [j|]; [|done].
    destruct (settled (p_state j)); [done|].
    by destruct (phrase_try r).
  - destruct (microtasks st) as [|k rest]; [done|].
    destruct (resume_frame k (pop st)) as (F1 & F2 & _).
    unfold index_state. rewrite F1, F2. done.
Qed.

(** X4: a call that finds its key in the phrase cache returns the cached
    promise at once: no GET, no change to either cache. *)
Lemma cached_phrases_returned (a : Args) (st : State) (q : nat) :
  phrases st !! key (locale a) (namespace a) = Some q →
  calls (load a st) = calls st ++ [Returns q]
  ∧ gets (load a st) = gets st
  ∧ indexes (load a st) = indexes st
  ∧ phrases (load a st) = phrases st.
Proof. intros Hq. unfold load. cbn zeta. by rewrite Hq. Qed.

End LoadFacts.

(** ** [load]: samples *)

Section LoadSamples.
#[local] Existing Instance Scenario.realm.

(** The manifest knows [en] only; a first call for [es] throws. *)
Lemma load_missing_locale_config_witness :
  calls (load (Scenario.call "es" "common" None) init) !! 0
  = Some (Throws (missing_index "es"))
  ∧ gets (load (Scenario.call "es" "common" None) init) = []
  ∧ indexes (load (Scenario.call "es" "common" None) init) = ∅
  ∧ phrases (load (Scenario.call "es" "common" None) init) = ∅.
Proof.
  exact (proj1 (load_missing_locale_config
                  (Scenario.call "es" "common" None) init eq_refl)
           eq_refl).
Defined.

(** C6, the claim as stated fails: the manifest has no entry for the locale
    ['toString'], and [load] does not throw the missing-index error.
    [manifest['toString']] and [indexes['toString']] are the function every
    object inherits, so the call passes both tests, issues no GET and awaits
    that function; when it goes on, in a realm where the function has no
    property ['common'], it throws the missing-namespace error. *)
Lemma missing_locale_config_inherited :
  Scenario.manifest_en !! "toString" = None
  ∧ calls (load (Scenario.call "toString" "common" None) init) = [Suspended]
  ∧ gets (load (Scenario.call "toString" "common" None) init) = []
  ∧ result (run [Call (Scenario.call "toString" "common" None); Microtask]) 0
    = Rejected (missing_namespace "toString" "common").
Proof. vm_compute. done. Qed.

(** C5, the claim as stated fails, both ways.  The index [{"common": ""}]
    loads and has an entry for ['common'], and [load] throws the
    missing-namespace error.  The index [{"common": "common-en.json"}]
    loads and has no entry for ['constructor'], and [load] does not throw:
    [index['constructor']] is the function every object inherits, and the
    call issues a phrase GET for its text. *)
Lemma missing_namespace_with_entry :
  (∃ index,
     index_state
       (run [Call (Scenario.call "en" "common" None);
             IndexResponse 0 (Scenario.ok Scenario.index_blank); Microtask]) 0
     = Some (Resolved index)
     ∧ is_Some (index !! "common")
     ∧ result
         (run [Call (Scenario.call "en" "common" None);
               IndexResponse 0 (Scenario.ok Scenario.index_blank); Microtask]) 0
       = Rejected (missing_namespace "en" "common"))
  ∧ (∃ index,
       index_state
         (run [Call (Scenario.call "en" "constructor" None);
               IndexResponse 0 (Scenario.ok Scenario.index_en); Microtask]) 0
       = Some (Resolved index)
       ∧ index !! "constructor" = None
       ∧ calls
           (run [Call (Scenario.call "en" "constructor" None);
                 IndexResponse 0 (Scenario.ok Scenario.index_en); Microtask])
         = [Returns 0]
       ∧ phrase_gets
           (run [Call (Scenario.call "en" "constructor" None);
                 IndexResponse 0 (Scenario.ok Scenario.index_en); Microtask])
         = [{| url := "/i18n/en/function Object() { [native code] }";
               req_signal := None |}]).
Proof.
  split; eexists; split_and!.
  - vm_compute. reflexivity.
  - vm_compute. eauto.
  - vm_compute. reflexivity.
  - vm_compute. reflexivity.
  - vm_compute. reflexivity.
  - vm_compute. reflexivity.
  - vm_compute. reflexivity.
Qed.

(** The first call for [en]/['common'] after the index [{"common": ""}]
    has loaded. *)
Lemma resume_missing_namespace_witness :
  calls (resume Scenario.first_call
           (run [Call (Scenario.call "en" "common" None);
                 IndexResponse 0 (Scenario.ok Scenario.index_blank)])) !! 0
  = Some (Throws (missing_namespace "en" "common"))
  ∧ gets (resume Scenario.first_call
            (run [Call (Scenario.call "en" "common" None);
                  IndexResponse 0 (Scenario.ok Scenario.index_blank)]))
    = gets (run [Call (Scenario.call "en" "common" None);
                 IndexResponse 0 (Scenario.ok Scenario.index_blank)])
  ∧ phrases (resume Scenario.first_call
               (run [Call (Scenario.call "en" "common" None);
                     IndexResponse 0 (Scenario.ok Scenario.index_blank)]))
    = phrases (run [Call (Scenario.call "en" "common" None);
                    IndexResponse 0 (Scenario.ok Scenario.index_blank)]).
Proof.
  destruct (resume_missing_namespace Scenario.first_call
              (run [Call (Scenario.call "en" "common" None);
                    IndexResponse 0 (Scenario.ok Scenario.index_blank)])
              {[ "common" := "" ]} eq_refl eq_refl (le_n 1))
    as (Hthrows & Hquiet & _).
  split; [apply Hthrows; right; reflexivity|].
  apply Hquiet. right. reflexivity.
Defined.

(** The index GET of a first call answers 404: the entry of [en] is gone
    and the next call issues the GET again. *)
Lemma failed_load_evicted_then_refetched_witness :
  indexes (respond_index 0 Scenario.not_found
             (run [Call (Scenario.call "en" "common" None)])) !! "en" = None
  ∧ gets (load (Scenario.call "en" "common" None)
            (respond_index 0 Scenario.not_found
               (run [Call (Scenario.call "en" "common" None)])))
    = gets (respond_index 0 Scenario.not_found
              (run [Call (Scenario.call "en" "common" None)]))
      ++ [index_request (Scenario.call "en" "common" None)].
Proof.
  pose proof
    (proj1 (failed_load_evicted_then_refetched
              [Call (Scenario.call "en" "common" None)])
       0 Scenario.first_index_job Scenario.not_found
       (new_Error "Failed to load") eq_refl eq_refl eq_refl)
    as (Hgone & _ & _ & Hretry).
  split; [exact Hgone|].
  exact (proj1 (Hretry (Scenario.call "en" "common" None)
                  eq_refl eq_refl eq_refl)).
Defined.

(** Two callers await the index of [en]; the GET carries the first
    caller's token; aborting it evicts the entry as a 404 would and the
    second caller throws the [AbortError]. *)
Lemma abort_evicts_like_any_failure_witness :
  indexes (respond_index 0 (FetchFails Scenario.aborted)
             (run Scenario.two_callers))
  = indexes (respond_index 0 Scenario.not_found (run Scenario.two_callers))
  ∧ indexes (respond_index 0 (FetchFails Scenario.aborted)
               (run Scenario.two_callers)) !! "en" = None
  ∧ calls (resume Scenario.second_of_two
             (respond_index 0 (FetchFails Scenario.aborted)
                (run Scenario.two_callers))) !! 1
    = Some (Throws Scenario.aborted).
Proof.
  pose proof
    (proj1 (abort_evicts_like_any_failure Scenario.two_callers)
       0 Scenario.shared_index_job (FetchFails Scenario.aborted)
       Scenario.not_found Scenario.aborted (new_Error "Failed to load")
       eq_refl eq_refl eq_refl eq_refl eq_refl)
    as (Hsame & _ & _ & _ & Hgone & _ & _ & Hwait).
  split_and!; [exact Hsame | exact Hgone |].
  refine (proj2 (Hwait Scenario.second_of_two _ eq_refl)).
  apply elem_of_cons. right. apply elem_of_cons. left. reflexivity.
Defined.

(** C3, the claim as stated fails: two callers with tokens [1] and [2] both
    await the index promise of [en], whose GET carries token [1].  Token [1]
    fires: the entry that the caller with token [2] is awaiting is evicted,
    and that caller, whose token did not fire, fails with the
    [AbortError]. *)
Lemma cancellation_evicts_entry_awaited_by_other :
  (signal ∘ k_args <$> waiting (run Scenario.two_callers)) = [Some 1; Some 2]
  ∧ (k_index <$> waiting (run Scenario.two_callers)) = [0; 0]
  ∧ indexes (run Scenario.two_callers) !! "en" = Some 0
  ∧ (req_signal <$> index_gets (run Scenario.two_callers)) = [Some 1]
  ∧ indexes (run (Scenario.two_callers
                    ++ [IndexResponse 0 (FetchFails Scenario.aborted)]))
      !! "en" = None
  ∧ result (drain (run (Scenario.two_callers
                          ++ [IndexResponse 0 (FetchFails Scenario.aborted)])))
      1 = Rejected Scenario.aborted.
Proof. vm_compute. done. Qed.

(** The index of [en] has loaded; a 404 for the phrase set leaves it
    cached. *)
Lemma resolved_index_stays_cached_witness :
  indexes
    (Loader.step
       (run [Call (Scenario.call "en" "common" None);
             IndexResponse 0 (Scenario.ok Scenario.index_en); Microtask])
       (PhraseResponse 0 Scenario.not_found)) !! "en" = Some 0
  ∧ index_state
      (Loader.step
         (run [Call (Scenario.call "en" "common" None);
               IndexResponse 0 (Scenario.ok Scenario.index_en); Microtask])
         (PhraseResponse 0 Scenario.not_found)) 0
    = Some (Resolved {[ "common" := "common-en.json" ]}).
Proof.
  exact (resolved_index_stays_cached
           [Call (Scenario.call "en" "common" None);
            IndexResponse 0 (Scenario.ok Scenario.index_en); Microtask]
           (PhraseResponse 0 Scenario.not_found)
           "en" 0 {[ "common" := "common-en.json" ]} eq_refl eq_refl).
Defined.

(** The phrase promise of [en]/['common'] is cached, still pending: a
    second call returns it. *)
Lemma cached_phrases_returned_witness :
  calls (load (Scenario.call "en" "common" (Some 2))
           (run [Call (Scenario.call "en" "common" (Some 1));
                 IndexResponse 0 (Scenario.ok Scenario.index_en); Microtask]))
  = calls (run [Call (Scenario.call "en" "common" (Some 1));
                IndexResponse 0 (Scenario.ok Scenario.index_en); Microtask])
    ++ [Returns 0]
  ∧ gets (load (Scenario.call "en" "common" (Some 2))
            (run [Call (Scenario.call "en" "common" (Some 1));
                  IndexResponse 0 (Scenario.ok Scenario.index_en); Microtask]))
    = gets (run [Call (Scenario.call "en" "common" (Some 1));
                 IndexResponse 0 (Scenario.ok Scenario.index_en); Microtask]).
Proof.
  destruct (cached_phrases_returned (Scenario.call "en" "common" (Some 2))
              (run [Call (Scenario.call "en" "common" (Some 1));
                    IndexResponse 0 (Scenario.ok Scenario.index_en);
                    Microtask])
              0 eq_refl) as (Hcalls & Hgets & _).
  split; [exact Hcalls | exact Hgets].
Defined.

End LoadSamples.

(** ** The key [locale-namespace] *)

(** C9: the key is not injective.  The pairs ([en-US], ['common']) and
    ([en], ['US-common']) differ and share the key ['en-US-common'], so a
    call of [load] for the second pair returns the promise cached for the
    first without any GET (even when the manifest has no [en]), a lookup for
    the second pair returns the store entry of the first, and
    [loadPhrases] for the first pair writes the entry that lookups for the
    second read. *)
Theorem key_not_injective :
  key "en-US" "common" = key "en" "US-common"
  ∧ ("en-US", "common") ≠ ("en", "US-common")
  ∧ (∀ st q a,
       phrases st !! key "en-US" "common" = Some q →
       locale a = "en" → namespace a = "US-common" →
       calls (load a st) !! length (calls st) = Some (Returns q)
       ∧ gets (load a st) = gets st)
  ∧ (∀ (Polyglot : Type) (store : gmap string Polyglot) entry,
       store !! key "en-US" "common" = Some entry →
       Store.usePolyglot store "en" (Some "US-common") = inr entry)
  ∧ (∀ (Polyglot : Type) (build : string → string → json → Polyglot)
       current phr,
       Store.usePolyglot
         (Store.loadPhrases build None "en-US" [("common", phr)] current)
         "en" (Some "US-common")
       = inr (build "en-US" "common" phr)).
Proof.
  split_and!.
  - reflexivity.
  - intros [=].
  - intros st q a Hq Hl Hn. unfold load. cbn zeta. rewrite Hl, Hn.
    change (key "en" "US-common") with (key "en-US" "common").
    rewrite Hq. cbn. split; [|done]. by rewrite lookup_app_r, Nat.sub_diag.
  - intros Polyglot store entry He. unfold Store.usePolyglot. cbn zeta.
    change (key "en" (default "common" (Some "US-common")))
      with (key "en-US" "common").
    by rewrite He.
  - intros Polyglot build current phr.
    unfold Store.usePolyglot, Store.loadPhrases, Store.merge, spread.
    cbn zeta.
    change (key "en" (default "common" (Some "US-common")))
      with (key "en-US" "common").
    erewrite lookup_union_Some_l; [done|].
    cbn. unfold Store.initiatePolyglot. cbn. apply lookup_insert_eq.
Qed.

(** ** The patched hooks: one commit, after the whole batch *)

Section HandoffFacts.
Import Handoff.
Context {Data : Type}.
Variable B : Batcher.
Implicit Types (st : @Tick Data) (h : @Hook Data) (hs : list (@Hook Data)).

Local Abbreviation step := (@Handoff.step Data B).
Local Abbreviation run := (@Handoff.run Data B).

Lemma thens_alter hs n f h :
  hs !! n = Some h →
  length (thens (alter f n hs)) + weight (h_then h)
  = length (thens hs) + weight (h_then (f h)).
Proof.
  revert n. induction hs as [|h0 hs IH]; intros [|n] Hn; try done.
  - cbn in Hn. injection Hn as ->. cbn.
    destruct (h_then h), (h_then (f h)); cbn; lia.
  - cbn in Hn. specialize (IH n Hn).
    change (alter f (S n) (h0 :: hs)) with (h0 :: alter f n hs).
    unfold thens in *. cbn.
    destruct (h_then h0); cbn; lia.
Qed.

Lemma all_settled_cons h hs :
  all_settled (h :: hs)
  = (if h_load h then settled (h_phrases h) else true) && all_settled hs.
Proof.
  unfold all_settled, registered. rewrite filter_cons.
  destruct (h_load h); case_decide; done.
Qed.

Lemma all_settled_alter hs n f :
  (∀ h, h_load (f h) = h_load h) →
  (∀ h, settled (h_phrases h) = true → settled (h_phrases (f h)) = true) →
  all_settled hs = true → all_settled (alter f n hs) = true.
Proof.
  intros Hload Hset.
  revert n. induction hs as [|h0 hs IH]; intros n Hall; [done|].
  rewrite all_settled_cons in Hall. apply andb_true_iff in Hall as [H0 Hall].
  destruct n as [|n].
  - change (alter f 0 (h0 :: hs)) with (f h0 :: hs).
    rewrite all_settled_cons, Hload, Hall, andb_true_r.
    destruct (h_load h0); [by apply Hset | done].
  - change (alter f (S n) (h0 :: hs)) with (h0 :: alter f n hs).
    rewrite all_settled_cons, H0. by apply IH.
Qed.

Lemma loads_alter hs n f :
  (∀ h, h_load (f h) = h_load h) →
  h_load <$> alter f n hs = h_load <$> hs.
Proof.
  intros Hload. revert n. induction hs as [|h0 hs IH]; intros [|n]; cbn;
    rewrite ?Hload, ?IH; done.
Qed.

Lemma alter_missing hs n f : hs !! n = None → alter f n hs = hs.
Proof.
  revert n. induction hs as [|h0 hs IH]; intros [|n] Hn; try done.
  change (alter f (S n) (h0 :: hs)) with (h0 :: alter f n hs).
  f_equal. by apply IH.
Qed.

Lemma TInv_start : TInv (@start Data).
Proof. split; cbn; [lia | intros n h Hn; by rewrite lookup_nil in Hn]. Qed.

Lemma TInv_with_hook st n f :
  (∀ h, h_then (f h) = h_then h) →
  (∀ h, h_resumed (f h) = h_resumed h) →
  TInv st → TInv (with_hook n f st).
Proof.
  intros Hthen Hres [H1 H2]. split; cbn.
  - destruct (hooks st !! n) as [h|] eqn:Hn.
    + pose proof (thens_alter (hooks st) n f h Hn) as Hlen.
      rewrite Hthen in Hlen. unfold thens in *. lia.
    + by rewrite alter_missing.
  - intros m h Hm Hr. rewrite list_lookup_alter in Hm.
    case_decide; [subst m|by eapply H2].
    destruct (hooks st !! n) as [h0|] eqn:Hn; [|done].
    cbn in Hm. injection Hm as <-. rewrite Hthen. rewrite Hres in Hr.
    by eapply H2.
Qed.

Lemma TInv_step st ev : TInv st → TInv (step st ev).
Proof.
  intros HI. destruct ev as [i | n o | n o | n | | n]; cbn.
  - unfold invoke. destruct (closed st); [done|].
    destruct HI as [H1 H2]. split; cbn.
    + unfold thens in *. rewrite omap_app. cbn. by rewrite app_nil_r.
    + intros n h [Hn | [_ Hn]]%lookup_app_Some; [by eapply H2|].
      by apply list_lookup_singleton_Some in Hn as [_ <-].
  - unfold original_settles. destruct (hooks st !! n); [|done].
    destruct (settled o && negb (settled (h_original h))); [|done].
    by apply TInv_with_hook.
  - unfold phrases_settle. destruct (hooks st !! n); [|done].
    destruct (h_load h && settled o && negb (settled (h_phrases h))); [|done].
    assert (TInv (with_hook n (fun h =>
              {| h_locale := h_locale h; h_load := h_load h;
                 h_original := h_original h; h_phrases := o;
                 h_resumed := h_resumed h; h_then := h_then h;
                 h_result := h_result h |}) st)) as HI'
      by by apply TInv_with_hook.
    destruct o as [| |e]; [done | done |].
    destruct (is_abort e); [done|]. by destruct HI'.
  - unfold resume. destruct (hooks st !! n) as [h|] eqn:Hn; [|done].
    destruct (h_resumed h) eqn:Hr; [done|].
    destruct (both h) as [|res|e]; [done| |].
    + destruct HI as [H1 H2]. pose proof (H2 n h Hn Hr) as Hnone.
      split; cbn.
      * match goal with |- context [alter ?f n _] =>
          pose proof (thens_alter (hooks st) n f h Hn) as Hlen end.
        unfold thens in *. cbn in Hlen. rewrite Hnone in Hlen. cbn in Hlen.
        destruct (committed st); cbn in *; [lia|].
        destruct (wants_commit (h_locale h)); cbn in *; lia.
      * intros m h' Hm Hr'. rewrite list_lookup_alter in Hm.
        case_decide; [subst m|by eapply H2].
        rewrite Hn in Hm. cbn in Hm. by injection Hm as <-.
    + destruct HI as [H1 H2]. split; cbn.
      * match goal with |- context [alter ?f n _] =>
          pose proof (thens_alter (hooks st) n f h Hn) as Hlen end.
        unfold thens in *. cbn in Hlen. lia.
      * intros m h' Hm Hr'. rewrite list_lookup_alter in Hm.
        case_decide; [subst m|by eapply H2].
        rewrite Hn in Hm. cbn in Hm. by injection Hm as <-.
  - destruct HI as [H1 H2]. by split.
  - unfold react. destruct (hooks st !! n) as [h|] eqn:Hn; [|done].
    destruct (h_then h) as [l|] eqn:Hl; [|done].
    destruct HI as [H1 H2].
    assert (h_resumed h = true) as Hr.
    { destruct (h_resumed h) eqn:Hr; [done|].
      rewrite (H2 n h Hn Hr) in Hl. done. }
    destruct (aggregate B st n) as [|[]|e]; [done| |].
    + split; cbn.
      * match goal with |- context [alter ?f n _] =>
          pose proof (thens_alter (hooks st) n f h Hn) as Hlen end.
        unfold thens in *. cbn in Hlen. rewrite Hl in Hlen. cbn in Hlen.
        rewrite length_app. cbn. lia.
      * intros m h' Hm Hr'. rewrite list_lookup_alter in Hm.
        case_decide; [subst m|by eapply H2].
        rewrite Hn in Hm. cbn in Hm. by injection Hm as <-.
    + split; cbn.
      * match goal with |- context [alter ?f n _] =>
          pose proof (thens_alter (hooks st) n f h Hn) as Hlen end.
        unfold thens in *. cbn in Hlen. rewrite Hl in Hlen. cbn in Hlen. lia.
      * intros m h' Hm Hr'. rewrite list_lookup_alter in Hm.
        case_decide; [subst m|by eapply H2].
        rewrite Hn in Hm. cbn in Hm. by injection Hm as <-.
Qed.

Lemma TInv_run evs : TInv (run evs).
Proof.
  unfold Handoff.run. generalize (@start Data) (@TInv_start).
  induction evs as [|ev evs IH]; intros st HI; [done|].
  cbn. apply IH. by apply TInv_step.
Qed.

(** Once the window is over and every registered load has settled, the
    batch and its loads stay as they are. *)
Lemma closed_batch_step st ev :
  closed st = true → all_settled (hooks st) = true →
  closed (step st ev) = true
  ∧ h_load <$> hooks (step st ev) = h_load <$> hooks st
  ∧ all_settled (hooks (step st ev)) = true.
Proof.
  intros Hc Hall. destruct ev as [i | n o | n o | n | | n]; cbn.
  - unfold invoke. by rewrite Hc.
  - unfold original_settles. destruct (hooks st !! n); [|done].
    destruct (settled o && negb (settled (h_original h))); [|done].
    cbn. split_and!; [done | by apply loads_alter | by apply all_settled_alter].
  - unfold phrases_settle. destruct (hooks st !! n); [|done].
    destruct (h_load h && settled o && negb (settled (h_phrases h))) eqn:Hg;
      [|done].
    apply andb_true_iff in Hg as [[_ Ho]%andb_true_iff _].
    destruct o as [| |e]; [done | | destruct (is_abort e)]; cbn;
      (split_and!; [done | by apply loads_alter | by apply all_settled_alter]).
  - unfold resume. destruct (hooks st !! n); [|done].
    destruct (h_resumed h); [done|].
    destruct (both h); [done | |]; cbn;
      (split_and!; [done | by apply loads_alter | by apply all_settled_alter]).
  - done.
  - unfold react. destruct (hooks st !! n); [|done].
    destruct (h_then h); [|done].
    destruct (aggregate B st n); [done | |]; cbn;
      (split_and!; [done | by apply loads_alter | by apply all_settled_alter]).
Qed.

Lemma closed_batch_later st later :
  closed st = true → all_settled (hooks st) = true →
  h_load <$> hooks (foldl step st later) = h_load <$> hooks st
  ∧ all_settled (hooks (foldl step st later)) = true.
Proof.
  revert st. induction later as [|ev later IH]; intros st Hc Hall; [done|].
  destruct (closed_batch_step st ev Hc Hall) as (Hc' & Hl & Hall').
  destruct (IH (step st ev) Hc' Hall') as [IH1 IH2].
  cbn. split; [congruence | done].
Qed.

(** Only the callback attached to the aggregate calls [setLocale], and only
    once the aggregate has resolved. *)
Lemma commit_needs_aggregate st ev :
  commits (step st ev) ≠ commits st →
  ∃ n, ev = React n ∧ ∃ u, aggregate B st n = Resolved u.
Proof.
  destruct ev as [i | n o | n o | n | | n]; cbn.
  - unfold invoke. by destruct (closed st).
  - unfold original_settles. destruct (hooks st !! n); [|done].
    by destruct (settled o && negb (settled (h_original h))).
  - unfold phrases_settle. destruct (hooks st !! n); [|done].
    destruct (h_load h && settled o && negb (settled (h_phrases h))); [|done].
    destruct o as [| |e]; [done | done |]. by destruct (is_abort e).
  - unfold resume. destruct (hooks st !! n); [|done].
    destruct (h_resumed h); [done|]. by destruct (both h).
  - done.
  - unfold react. destruct (hooks st !! n); [|done].
    destruct (h_then h); [|done].
    destruct (aggregate B st n) as [|u|e] eqn:Hagg; [done | | done].
    intros _. exists n. split; [done|]. by exists u.
Qed.

(** C2: every tick commits at most once, however many hooks asked for a
    locale; and with a batcher whose aggregate covers the whole batch, a
    step that calls [setLocale] starts from a state in which the window is
    over and every registered load has settled, fulfilled or rejected; from
    then on the registered loads are the same and stay settled. *)
Theorem commit_once_after_whole_batch (evs : list Event) (ev : Event) :
  length (commits (step (run evs) ev)) ≤ 1
  ∧ (scope B = WholeBatch →
     commits (step (run evs) ev) ≠ commits (run evs) →
     closed (run evs) = true
     ∧ all_settled (hooks (run evs)) = true
     ∧ ∀ later,
         h_load <$> hooks (foldl step (run evs) later)
         = h_load <$> hooks (run evs)
         ∧ all_settled (hooks (foldl step (run evs) later)) = true).
Proof.
  split.
  - pose proof (TInv_step _ ev (TInv_run evs)) as [Honce _].
    destruct (committed (step (run evs) ev)); lia.
  - intros Hscope (n & -> & u & Hagg)%commit_needs_aggregate.
    unfold aggregate in Hagg. rewrite Hscope in Hagg.
    destruct (closed (run evs)) eqn:Hc; [|done]. cbn in Hagg.
    unfold covered in Hagg. rewrite Hscope in Hagg.
    destruct (all_settled (hooks (run evs))) eqn:Hall; [|done].
    split_and!; [done | done |].
    intros later. by apply closed_batch_later.
Qed.

(** The hook's own promise follows the original hook's and nothing else. *)
Lemma result_follows_original_step st ev :
  (∀ n h, hooks st !! n = Some h →
          h_result h = Pending ∨ h_result h = h_original h) →
  ∀ n h, hooks (step st ev) !! n = Some h →
         h_result h = Pending ∨ h_result h = h_original h.
Proof.
  intros HI. destruct ev as [i | m o | m o | m | | m]; cbn.
  - unfold invoke. destruct (closed st); [done|]. cbn.
    intros n h [Hn | [_ Hn]]%lookup_app_Some; [by eapply HI|].
    apply list_lookup_singleton_Some in Hn as [_ <-]. by left.
  - unfold original_settles. destruct (hooks st !! m) as [h0|] eqn:Hm; [|done].
    destruct (settled o && negb (settled (h_original h0))) eqn:Hg; [|done].
    cbn. intros n h Hn. rewrite list_lookup_alter in Hn.
    case_decide; [subst n|by eapply HI].
    rewrite Hm in Hn. cbn in Hn. injection Hn as <-. cbn. left.
    apply andb_true_iff in Hg as [_ Hg].
    destruct (HI m h0 Hm) as [? | Heq]; [done|].
    rewrite Heq. by destruct (h_original h0).
  - unfold phrases_settle. destruct (hooks st !! m) as [h0|] eqn:Hm; [|done].
    destruct (h_load h0 && settled o && negb (settled (h_phrases h0))); [|done].
    assert (∀ n h, hooks (with_hook m (fun h =>
               {| h_locale := h_locale h; h_load := h_load h;
                  h_original := h_original h; h_phrases := o;
                  h_resumed := h_resumed h; h_then := h_then h;
                  h_result := h_result h |}) st) !! n = Some h →
              h_result h = Pending ∨ h_result h = h_original h) as HI'.
    { cbn. intros n h Hn. rewrite list_lookup_alter in Hn.
      case_decide; [subst n|by eapply HI].
      rewrite Hm in Hn. cbn in Hn. injection Hn as <-. cbn. by eapply HI. }
    destruct o as [| |e]; [done | done |]. by destruct (is_abort e).
  - unfold resume. destruct (hooks st !! m) as [h0|] eqn:Hm; [|done].
    destruct (h_resumed h0); [done|].
    unfold both. destruct (h_original h0) as [|res|e] eqn:Ho; [done | |].
    + destruct (h_load h0 && negb (settled (h_phrases h0))); [done|].
      cbn. intros n h Hn. rewrite list_lookup_alter in Hn.
      case_decide; [subst n|by eapply HI].
      rewrite Hm in Hn. cbn in Hn. injection Hn as <-. cbn. by right.
    + cbn. intros n h Hn. rewrite list_lookup_alter in Hn.
      case_decide; [subst n|by eapply HI].
      rewrite Hm in Hn. cbn in Hn. injection Hn as <-. cbn. by right.
  - done.
  - unfold react. destruct (hooks st !! m) as [h0|] eqn:Hm; [|done].
    destruct (h_then h0); [|done].
    destruct (aggregate B st m); [done | |]; cbn; intros n h Hn;
      rewrite list_lookup_alter in Hn;
      (case_decide; [subst n|by eapply HI]);
      rewrite Hm in Hn; cbn in Hn; injection Hn as <-; cbn; by eapply HI.
Qed.

Lemma result_follows_original evs n h :
  hooks (run evs) !! n = Some h →
  h_result h = Pending ∨ h_result h = h_original h.
Proof.
  unfold Handoff.run. revert n h.
  assert (∀ n h, hooks (@start Data) !! n = Some h →
                 h_result h = Pending ∨ h_result h = h_original h) as H0.
  { intros n h Hn. cbn in Hn. by rewrite lookup_nil in Hn. }
  revert H0. generalize (@start Data).
  induction evs as [|ev evs IH]; intros st HI; [done|].
  cbn. apply IH. by apply result_follows_original_step.
Qed.

(** C7: the promise a patched hook returns is pending or settled exactly as
    the original hook's: it resolves with the original's value once the
    original has resolved and the translation load, if any, has settled
    either way, and it rejects only with the original's own error.  A
    rejected translation load changes neither: its error goes to
    [console.error] unless it is an [AbortError], which is dropped. *)
Theorem patched_hook_returns_original (evs : list Event) (n : nat) (h : Hook) :
  hooks (run evs) !! n = Some h →
  (h_result h = Pending ∨ h_result h = h_original h)
  ∧ (∀ e, h_result h = Rejected e → h_original h = Rejected e)
  ∧ (∀ res, h_original h = Resolved res → h_resumed h = false →
            (h_load h = true → settled (h_phrases h) = true) →
            h_result <$> hooks (step (run evs) (Resume n)) !! n
            = Some (Resolved res))
  ∧ (∀ e, h_original h = Rejected e → h_resumed h = false →
          h_result <$> hooks (step (run evs) (Resume n)) !! n
          = Some (Rejected e))
  ∧ (∀ e, h_load h = true → h_phrases h = Pending →
          console (step (run evs) (PhrasesSettle n (Rejected e)))
          = (if is_abort e then console (run evs)
             else console (run evs) ++ [e])
          ∧ h_result <$> hooks (step (run evs) (PhrasesSettle n (Rejected e))) !! n
            = Some (h_result h)
          ∧ h_original <$> hooks (step (run evs) (PhrasesSettle n (Rejected e))) !! n
            = Some (h_original h)).
Proof.
  intros Hn. pose proof (result_follows_original evs n h Hn) as Hres.
  split_and!.
  - done.
  - intros e He. destruct Hres as [Hp | Ho]; congruence.
  - intros res Ho Hr Hload. cbn. unfold resume. rewrite Hn, Hr.
    unfold both. rewrite Ho.
    assert (h_load h && negb (settled (h_phrases h)) = false) as ->.
    { destruct (h_load h); [|done]. by rewrite Hload. }
    cbn. by rewrite list_lookup_alter_eq, Hn.
  - intros e Ho Hr. cbn. unfold resume. rewrite Hn, Hr.
    unfold both. rewrite Ho. cbn. by rewrite list_lookup_alter_eq, Hn.
  - intros e Hload Hpend. cbn. unfold phrases_settle.
    rewrite Hn, Hload, Hpend. cbn.
    destruct (is_abort e); cbn; by rewrite list_lookup_alter_eq, Hn.
Qed.

End HandoffFacts.

(** Two hooks want [es], one load resolved, one rejected: the callback of
    the first hook commits, after both loads settled. *)
Lemma commit_once_after_whole_batch_witness :
  length (Handoff.commits
            (Handoff.step TickScenario.whole
               (Handoff.run TickScenario.whole TickScenario.two_hooks)
               (Handoff.React 0))) ≤ 1
  ∧ Handoff.closed (Handoff.run TickScenario.whole TickScenario.two_hooks)
    = true
  ∧ Handoff.all_settled
      (Handoff.hooks (Handoff.run TickScenario.whole TickScenario.two_hooks))
    = true.
Proof.
  destruct (commit_once_after_whole_batch TickScenario.whole
              TickScenario.two_hooks (Handoff.React 0)) as [Hone Hafter].
  split; [exact Hone|].
  destruct (Hafter eq_refl) as (Hc & Hall & _).
  { vm_compute. intros [=]. }
  split; [exact Hc | exact Hall].
Defined.

(** Under the narrower reading of [register], where the aggregate of a hook
    covers the loads registered up to its own call, the first hook commits
    while the load of the second is still pending. *)
Lemma up_to_call_commits_early :
  Handoff.commits
    (Handoff.run TickScenario.up_to_call TickScenario.first_hook_done)
  = ["es"]
  ∧ Handoff.all_settled
      (Handoff.hooks
         (Handoff.run TickScenario.up_to_call TickScenario.first_hook_done))
    = false
  ∧ Handoff.commits
      (Handoff.run TickScenario.whole TickScenario.first_hook_done)
    = [].
Proof. vm_compute. done. Qed.

(** The load was rejected, the original resolved with [10]: the patched
    hook resolves with [10]. *)
Lemma patched_hook_returns_original_witness :
  Handoff.h_result
    <$> Handoff.hooks
          (Handoff.step TickScenario.whole
             (Handoff.run TickScenario.whole TickScenario.load_failed)
             (Handoff.Resume 0)) !! 0
  = Some (Resolved 10).
Proof.
  destruct (patched_hook_returns_original TickScenario.whole
              TickScenario.load_failed 0 TickScenario.hook_after_failure
              eq_refl) as (_ & _ & Hresolves & _ & _).
  exact (Hresolves 10 eq_refl eq_refl (fun _ => eq_refl)).
Defined.

(** 204 is accepted. *)
Lemma status_is_2_http_witness :
  status_is_2 204 = bool_decide (200 ≤ 204 ≤ 299)%N.
Proof.
  apply (status_is_2_http 204). split; intros H; discriminate H.
Defined.

(** ** The key [locale-namespace], continued *)

Lemma key_cons c loc ns : key (String c loc) ns = String c (key loc ns).
Proof. reflexivity. Qed.

Lemma key_same_locale loc ns ns' : key loc ns = key loc ns' → ns = ns'.
Proof.
  induction loc as [|c loc IH].
  - cbn. by intros [= H].
  - rewrite !key_cons. intros [= H]. by apply IH.
Qed.

(** X5: for one locale the key tells the namespaces apart, and on locales
    that contain no hyphen it tells the pairs apart: two pairs share a key
    only when a locale contains ['-']. *)
Theorem key_injective_without_hyphen (loc loc' ns ns' : string) :
  (key loc ns = key loc ns' → ns = ns')
  ∧ (Keys.hyphen_free loc = true → Keys.hyphen_free loc' = true →
     key loc ns = key loc' ns' → loc = loc' ∧ ns = ns').
Proof.
  split; [apply key_same_locale|].
  revert loc'. induction loc as [|c loc IH]; intros [|c' loc'].
  - cbn. intros _ _ [= H]. done.
  - intros _ Hfree. rewrite key_cons. intros [= <- _].
    cbn in Hfree. by rewrite bool_decide_eq_true_2 in Hfree.
  - intros Hfree _. rewrite key_cons. intros [= -> _].
    cbn in Hfree. by rewrite bool_decide_eq_true_2 in Hfree.
  - cbn [Keys.hyphen_free].
    intros [_ Hfree]%andb_true_iff [_ Hfree']%andb_true_iff.
    rewrite !key_cons. intros [= -> Hkey].
    destruct (IH loc' Hfree Hfree' Hkey) as [-> ->]. done.
Qed.

(** [en] and [es] have no hyphen. *)
Lemma key_injective_without_hyphen_witness :
  (key "en" "common" = key "en" "admin" → "common" = "admin")
  ∧ (key "en" "common" = key "es" "common" →
     "en" = "es" ∧ "common" = "common").
Proof.
  exact (conj
           (proj1 (key_injective_without_hyphen "en" "es" "common" "admin"))
           (proj2 (key_injective_without_hyphen "en" "es" "common" "common")
              eq_refl eq_refl)).
Defined.

(** ** [build.js]: the filter of external modules *)

(** Decides the comparisons of characters in the goal. *)
Ltac chars :=
  cbn;
  repeat first [ rewrite bool_decide_eq_true_2 by done
               | rewrite bool_decide_eq_false_2 by done ];
  cbn.

(** X14: the filter of the second [onResolve] rejects exactly the empty
    path, ['.'], ['..'] and the paths that start with ['/'], ['./'] or
    ['../']; every other specifier, a package name or a name that merely
    starts with dots, is left external. *)
Theorem filter_external_relative (path : string) :
  Build.filter_external path = false ↔
  path = "" ∨ path = "." ∨ path = ".."
  ∨ (∃ rest, path = String "/" rest)
  ∨ (∃ rest, path = String "." (String "/" rest))
  ∨ (∃ rest, path = String "." (String "." (String "/" rest))).
Proof.
  unfold Build.filter_external, Build.starts_other, Build.starts_dot_other,
    Build.starts_dot_dot_not_slash, Build.other.
  destruct path as [|c1 path]; [split; [by left | done]|].
  destruct (decide (c1 = "/"%char)) as [->|H1].
  { chars. split; [intros _|done]. do 3 right. left. by eexists. }
  destruct (decide (c1 = "."%char)) as [->|H1'].
  2:{ chars. split; [done|].
      intros [H|[H|[H|[[r H]|[[r H]|[r H]]]]]]; congruence. }
  destruct path as [|c2 path].
  { chars. split; [intros _; right; by left | done]. }
  destruct (decide (c2 = "/"%char)) as [->|H2].
  { chars. split; [intros _|done]. do 4 right. left. by eexists. }
  destruct (decide (c2 = "."%char)) as [->|H2'].
  2:{ chars. split; [done|].
      intros [H|[H|[H|[[r H]|[[r H]|[r H]]]]]]; congruence. }
  destruct path as [|c3 path].
  { chars. split; [intros _; do 2 right; by left | done]. }
  destruct (decide (c3 = "/"%char)) as [->|H3].
  { chars. split; [intros _|done]. do 5 right. by eexists. }
  chars. split; [done|].
  intros [H|[H|[H|[[r H]|[[r H]|[r H]]]]]]; congruence.
Qed.

(** ** The example route: the language switch link *)

Lemma split_cons sep s : ∃ part parts, Example.split sep s = part :: parts.
Proof.
  induction s as [|c s (part & parts & IH)]; cbn; [by eexists _, _|].
  case_bool_decide; [by eexists _, _|]. rewrite IH. by eexists _, _.
Qed.

Lemma join_cons sep part part' parts :
  Example.join sep (part :: part' :: parts)
  = part +:+ sep +:+ Example.join sep (part' :: parts).
Proof. reflexivity. Qed.

(** Splitting at ['/'] and joining with ['/'] gives the string back. *)
Lemma join_split s : Example.join "/" (Example.split "/" s) = s.
Proof.
  induction s as [|c s IH]; [done|]. cbn [Example.split].
  destruct (split_cons "/" s) as (part & parts & Hs). rewrite Hs in IH |- *.
  case_bool_decide as Hc.
  - rewrite join_cons, IH. by subst c.
  - destruct parts as [|part' parts]; [cbn in *; by subst|].
    rewrite join_cons in IH |- *. by rewrite <- IH.
Qed.

Lemma split_segment seg rest :
  Example.no_slash seg = true →
  Example.split "/" (seg +:+ "/" +:+ rest) = seg :: Example.split "/" rest.
Proof.
  induction seg as [|c seg IH]; [intros _; by chars|].
  cbn [Example.no_slash]. intros [Hc Hseg]%andb_true_iff.
  change (String c seg +:+ "/" +:+ rest)
    with (String c (seg +:+ "/" +:+ rest)).
  cbn [Example.split]. rewrite (IH Hseg).
  apply negb_true_iff in Hc. by rewrite Hc.
Qed.

Lemma split_no_slash seg :
  Example.no_slash seg = true → Example.split "/" seg = [seg].
Proof.
  induction seg as [|c seg IH]; [done|].
  cbn [Example.no_slash]. intros [Hc Hseg]%andb_true_iff.
  cbn [Example.split]. rewrite (IH Hseg).
  apply negb_true_iff in Hc. by rewrite Hc.
Qed.

(** X13: the language switch link replaces the first segment of the path,
    whatever it is, by [/es] when the current locale is [en] and by [/en]
    for every other locale, and keeps the rest of the path as it is; a path
    with no second segment gives [/es] or [/en] alone. *)
Theorem langSwitch_replaces_first_segment (locale seg rest : string) :
  Example.no_slash seg = true →
  Example.langSwitch locale ("/" +:+ seg +:+ "/" +:+ rest)
  = (if bool_decide (locale = "en") then "/es" else "/en") +:+ "/" +:+ rest
  ∧ Example.langSwitch locale ("/" +:+ seg)
    = (if bool_decide (locale = "en") then "/es" else "/en")
  ∧ Example.langSwitch locale seg
    = (if bool_decide (locale = "en") then "/es" else "/en").
Proof.
  intros Hseg. unfold Example.langSwitch. split_and!.
  - change ("/" +:+ seg +:+ "/" +:+ rest)
      with ("" +:+ "/" +:+ (seg +:+ "/" +:+ rest)).
    rewrite (split_segment "" _ eq_refl), (split_segment seg rest Hseg).
    cbn [drop]. destruct (split_cons "/" rest) as (part & parts & Hs).
    pose proof (join_split rest) as Hjoin. rewrite Hs in Hjoin |- *.
    rewrite drop_0. by rewrite join_cons, Hjoin.
  - change ("/" +:+ seg) with ("" +:+ "/" +:+ seg).
    rewrite (split_segment "" _ eq_refl), (split_no_slash seg Hseg). done.
  - rewrite (split_no_slash seg Hseg). done.
Qed.

(** From [/en/about/team] with locale [en]. *)
Lemma langSwitch_replaces_first_segment_witness :
  Example.langSwitch "en" ("/" +:+ "en" +:+ "/" +:+ "about/team")
  = "/es" +:+ "/" +:+ "about/team"
  ∧ Example.langSwitch "en" ("/" +:+ "en") = "/es"
  ∧ Example.langSwitch "en" "en" = "/es".
Proof.
  exact (langSwitch_replaces_first_segment "en" "en" "about/team" eq_refl).
Defined.

(** ** [Handoff]: patching the client routes *)

Lemma wrap_original b b' saved current :
  Routes.wrap b'
    (Routes.original_of (Routes.original_of saved current)
       (Routes.wrap b (Routes.original_of saved current) current))
    (Routes.wrap b (Routes.original_of saved current) current)
  = Routes.wrap b' (Routes.original_of saved current) current.
Proof. by destruct saved, current. Qed.

Lemma original_of_again b saved current :
  Routes.original_of (Routes.original_of saved current)
    (Routes.wrap b (Routes.original_of saved current) current)
  = Routes.original_of saved current.
Proof. by destruct saved, current. Qed.

(** Patching a patched tree is patching the tree. *)
Fixpoint patch_patch (b1 b2 : nat) (r : Routes.Route) {struct r} :
  Routes.patch b2 (Routes.patch b1 r) = Routes.patch b2 r.
Proof.
  destruct r as [id l a p c]. cbn.
  rewrite !wrap_original, !original_of_again. f_equal.
  destruct c as [cs|]; [|done]. cbn. f_equal.
  induction cs as [|r cs IH]; [done|]. cbn. f_equal; [|exact IH].
  apply patch_patch.
Qed.

Fixpoint patch_untouched (b : nat) (r : Routes.Route) {struct r} :
  Routes.untouched r = true →
  Routes.all_wrapped_once b (Routes.patch b r) = true.
Proof.
  destruct r as [id l a p c]. cbn.
  intros [[[Hp Hl]%andb_true_iff Ha]%andb_true_iff Hc]%andb_true_iff.
  destruct p; [done|]. cbn.
  apply andb_true_iff. split.
  - apply andb_true_iff. split.
    + destruct l as [[f|f b']|]; cbn; try done. by apply bool_decide_eq_true.
    + destruct a as [[f|f b']|]; cbn; try done. by apply bool_decide_eq_true.
  - destruct c as [cs|]; [|done]. cbn.
    induction cs as [|r cs IH]; [done|]. cbn in Hc |- *.
    apply andb_true_iff in Hc as [Hr Hcs].
    apply andb_true_iff. split; [by apply patch_untouched | by apply IH].
Qed.

(** X10: however often the effect of [Handoff] runs, [patch] never wraps a
    wrapper: patching routes that were patched before gives what patching
    them afresh gives.  So on routes that start untouched every [loader]
    and [action], at every depth, is the wrapper of the last run around the
    route's own function; a route without a [loader] stays without, and no
    route or child is added or dropped. *)
Theorem patch_never_stacks (routes : list Routes.Route) (b1 b2 : nat) :
  Routes.patch_all b2 (Routes.patch_all b1 routes) = Routes.patch_all b2 routes
  ∧ (forallb Routes.untouched routes = true →
     forallb (Routes.all_wrapped_once b2)
       (Routes.patch_all b2 (Routes.patch_all b1 routes)) = true)
  ∧ (∀ i r, routes !! i = Some r → Routes.patched r = None →
       ∃ r', Routes.patch_all b2 (Routes.patch_all b1 routes) !! i = Some r'
             ∧ Routes.loader r'
               = (fun f => Routes.Wrapper f b2) <$> Routes.loader r
             ∧ Routes.action r'
               = (fun f => Routes.Wrapper f b2) <$> Routes.action r
             ∧ length <$> Routes.children r' = length <$> Routes.children r)
  ∧ length (Routes.patch_all b2 (Routes.patch_all b1 routes)) = length routes.
Proof.
  assert (Routes.patch_all b2 (Routes.patch_all b1 routes)
          = Routes.patch_all b2 routes) as ->.
  { unfold Routes.patch_all. rewrite <- list_fmap_compose.
    apply list_fmap_ext. intros i r _. apply patch_patch. }
  unfold Routes.patch_all. split_and!.
  - done.
  - induction routes as [|r rs IH]; [done|]. cbn.
    intros [Hr Hrs]%andb_true_iff. apply andb_true_iff.
    split; [by apply patch_untouched | by apply IH].
  - intros i r Hi Hp. exists (Routes.patch b2 r).
    rewrite list_lookup_fmap, Hi. split; [done|].
    destruct r as [id l a p c]. cbn in Hp. subst p. cbn. split_and!.
    + by destruct l.
    + by destruct a.
    + destruct c as [cs|]; [|done]. cbn. by rewrite length_map.
  - by rewrite length_fmap.
Qed.

(** A route with a [loader] and a child with an [action], patched by the
    effect runs [1] and [2]. *)
Lemma patch_never_stacks_witness :
  forallb (Routes.all_wrapped_once 2)
    (Routes.patch_all 2
       (Routes.patch_all 1
          [Routes.mkRoute "routes/$lang" (Some (Routes.Own 0)) None None
             (Some [Routes.mkRoute "routes/$lang/index" None
                      (Some (Routes.Own 1)) None None])])) = true
  ∧ ∃ r', Routes.patch_all 2
            (Routes.patch_all 1
               [Routes.mkRoute "routes/$lang" (Some (Routes.Own 0)) None None
                  (Some [Routes.mkRoute "routes/$lang/index" None
                           (Some (Routes.Own 1)) None None])]) !! 0
          = Some r'
          ∧ Routes.loader r' = Some (Routes.Wrapper (Routes.Own 0) 2)
          ∧ Routes.action r' = None
          ∧ length <$> Routes.children r' = Some 1.
Proof.
  destruct (patch_never_stacks
              [Routes.mkRoute "routes/$lang" (Some (Routes.Own 0)) None None
                 (Some [Routes.mkRoute "routes/$lang/index" None
                          (Some (Routes.Own 1)) None None])] 1 2)
    as (_ & Hall & Hroute & _).
  split; [exact (Hall eq_refl) | exact (Hroute 0 _ eq_refl eq_refl)].
Defined.

(** ** The patched hooks: who commits, and when a hook returns *)

Section HandoffMore.
Import Handoff TickInvariants.
Context {Data : Type}.
Variable B : Batcher.
Implicit Types (st : @Tick Data) (h : @Hook Data) (evs : list (@Event Data)).

Local Abbreviation step := (@Handoff.step Data B).
Local Abbreviation run := (@Handoff.run Data B).

(** Reads a hook of a list altered at [m], given the hook [Hm] found at
    [m] before. *)
Ltac altered Hn Hm :=
  rewrite list_lookup_alter in Hn;
  case_decide;
  [ subst; rewrite Hm in Hn; cbn in Hn; injection Hn as <-; cbn | ].

Lemma run_snoc evs ev : run (evs ++ [ev]) = step (run evs) ev.
Proof. unfold Handoff.run. by rewrite foldl_app. Qed.

Lemma wants_commit_Some o l :
  wants_commit o = Some l ↔ o = Some l ∧ l ≠ "".
Proof.
  unfold wants_commit, truthy. destruct o as [s|].
  - case_bool_decide as Hs; cbn.
    + split; [done | intros [[= ->] Hne]; done].
    + split; [intros [= ->]; done | intros [[= ->] _]; done].
  - split; [done | intros [[=] _]].
Qed.

Lemma commits_requested_step evs st ev :
  commits_requested evs st → commits_requested (evs ++ [ev]) (step st ev).
Proof.
  intros [HH HC].
  assert (HH' : ∀ n h, hooks st !! n = Some h →
            (∃ i, Invoke i ∈ evs ++ [ev] ∧ h_locale h = requested_locale i)
            ∧ ∀ l, h_then h = Some l → wants_commit (h_locale h) = Some l).
  { intros n h Hn. destruct (HH n h Hn) as [(i & Hi & Hl) Ht].
    split; [|done]. exists i. split; [|done]. apply elem_of_app. by left. }
  assert (HC' : ∀ l, l ∈ commits st →
            ∃ i, Invoke i ∈ evs ++ [ev]
                 ∧ wants_commit (requested_locale i) = Some l).
  { intros l (i & Hi & Hl)%HC. exists i. split; [|done].
    apply elem_of_app. by left. }
  clear HH HC.
  destruct ev as [i | m o | m o | m | | m]; cbn.
  - unfold invoke. destruct (closed st); [by split|]. split; cbn; [|done].
    intros n h [Hn | [_ Hn]]%lookup_app_Some; [apply (HH' _ _ Hn)|].
    apply list_lookup_singleton_Some in Hn as [_ <-]. cbn. split; [|done].
    exists i. split; [|done]. apply elem_of_app. right.
    by apply list_elem_of_singleton.
  - unfold original_settles. destruct (hooks st !! m) as [h0|] eqn:Hm;
      [|by split].
    destruct (settled o && negb (settled (h_original h0))); [|by split].
    split; cbn; [|done]. intros n h Hn.
    altered Hn Hm; [apply (HH' _ _ Hm) | apply (HH' _ _ Hn)].
  - unfold phrases_settle. destruct (hooks st !! m) as [h0|] eqn:Hm;
      [|by split].
    destruct (h_load h0 && settled o && negb (settled (h_phrases h0)));
      [|by split].
    assert (commits_requested (evs ++ [PhrasesSettle m o])
              (with_hook m (fun h =>
                 {| h_locale := h_locale h; h_load := h_load h;
                    h_original := h_original h; h_phrases := o;
                    h_resumed := h_resumed h; h_then := h_then h;
                    h_result := h_result h |}) st)) as HI.
    { split; cbn; [|done]. intros n h Hn.
    altered Hn Hm; [apply (HH' _ _ Hm) | apply (HH' _ _ Hn)]. }
    destruct o as [| |e]; [done | done |]. by destruct (is_abort e).
  - unfold resume. destruct (hooks st !! m) as [h0|] eqn:Hm; [|by split].
    destruct (h_resumed h0); [by split|].
    destruct (both h0) as [|res|e]; [by split | |].
    + split; cbn; [|done]. intros n h Hn.
      altered Hn Hm; [|apply (HH' _ _ Hn)].
      split; [apply (HH' _ _ Hm)|]. intros l. by destruct (committed st).
    + split; cbn; [|done]. intros n h Hn.
      altered Hn Hm; [apply (HH' _ _ Hm) | apply (HH' _ _ Hn)].
  - by split.
  - unfold react. destruct (hooks st !! m) as [h0|] eqn:Hm; [|by split].
    destruct (h_then h0) as [l0|] eqn:Hl0; [|by split].
    destruct (aggregate B st m) as [|u|e]; [by split | |].
    + split; cbn.
      * intros n h Hn. altered Hn Hm; [|apply (HH' _ _ Hn)].
        split; [apply (HH' _ _ Hm) | done].
      * intros l [Hl | ->%list_elem_of_singleton]%elem_of_app; [by apply HC'|].
        destruct (HH' m h0 Hm) as [(i & Hi & Hloc) Ht].
        exists i. split; [done|]. rewrite <- Hloc. by apply Ht.
    + split; cbn; [|done]. intros n h Hn.
      altered Hn Hm; [|apply (HH' _ _ Hn)].
      split; [apply (HH' _ _ Hm) | done].
Qed.

Lemma commits_requested_run evs : commits_requested evs (run evs).
Proof.
  induction evs as [|ev evs IH] using rev_ind.
  - split; cbn; [intros n h Hn; by rewrite lookup_nil in Hn|].
    intros l Hl. by apply not_elem_of_nil in Hl.
  - rewrite run_snoc. by apply commits_requested_step.
Qed.

(** X11: a locale is committed only if a hook of the tick was invoked with
    it, as a non-empty string: hooks whose [preloadTranslations] gives no
    locale, or the empty string, never cause a [setLocale]. *)
Theorem commit_is_requested (evs : list Event) (l : string) :
  l ∈ commits (run evs) →
  ∃ i, Invoke i ∈ evs ∧ requested_locale i = Some l ∧ l ≠ "".
Proof.
  intros (i & Hi & Hl)%(proj2 (commits_requested_run evs)).
  apply wants_commit_Some in Hl as [Hl Hne]. by exists i.
Qed.

Lemma waited_step st ev : waited st → waited (step st ev).
Proof.
  unfold waited. intros HW. destruct ev as [i | m o | m o | m | | m]; cbn.
  - unfold invoke. destruct (closed st); [done|]. cbn.
    intros n h [Hn | [_ Hn]]%lookup_app_Some; [apply (HW _ _ Hn)|].
    by apply list_lookup_singleton_Some in Hn as [_ <-].
  - unfold original_settles. destruct (hooks st !! m) as [h0|] eqn:Hm; [|done].
    destruct (settled o && negb (settled (h_original h0))); [|done].
    cbn. intros n h Hn.
    altered Hn Hm; [apply (HW _ _ Hm) | apply (HW _ _ Hn)].
  - unfold phrases_settle. destruct (hooks st !! m) as [h0|] eqn:Hm; [|done].
    destruct (h_load h0 && settled o && negb (settled (h_phrases h0))) eqn:Hg;
      [|done].
    apply andb_true_iff in Hg as [[_ Ho]%andb_true_iff _].
    assert (waited (with_hook m (fun h =>
              {| h_locale := h_locale h; h_load := h_load h;
                 h_original := h_original h; h_phrases := o;
                 h_resumed := h_resumed h; h_then := h_then h;
                 h_result := h_result h |}) st)) as HI.
    { unfold waited. cbn. intros n h Hn. altered Hn Hm; [|apply (HW _ _ Hn)].
      split; [apply (HW _ _ Hm) | done]. }
    destruct o as [| |e]; [done | done |]. by destruct (is_abort e).
  - unfold resume. destruct (hooks st !! m) as [h0|] eqn:Hm; [|done].
    destruct (h_resumed h0); [done|].
    destruct (both h0) as [|res|e] eqn:Hboth; [done | |].
    + cbn. intros n h Hn. altered Hn Hm; [|apply (HW _ _ Hn)].
      split; [done|]. intros res' _ Hload. unfold both in Hboth.
      destruct (h_original h0); [done| |done]. rewrite Hload in Hboth.
      by destruct (settled (h_phrases h0)).
    + cbn. intros n h Hn. altered Hn Hm; [|apply (HW _ _ Hn)]. done.
  - done.
  - unfold react. destruct (hooks st !! m) as [h0|] eqn:Hm; [|done].
    destruct (h_then h0); [|done].
    destruct (aggregate B st m); [done | |]; cbn; intros n h Hn;
      (altered Hn Hm; [apply (HW _ _ Hm) | apply (HW _ _ Hn)]).
Qed.

Lemma waited_run evs : waited (run evs).
Proof.
  induction evs as [|ev evs IH] using rev_ind.
  - intros n h Hn. cbn in Hn. by rewrite lookup_nil in Hn.
  - rewrite run_snoc. by apply waited_step.
Qed.

(** X12: a patched hook that has returned the route's data has waited for
    the translation load: its promise resolves only with the original's
    value and only after the load it registered, if any, has settled. *)
Theorem hook_returns_after_load (evs : list Event) (n : nat) (h : Hook)
    (res : Data) :
  hooks (run evs) !! n = Some h →
  h_result h = Resolved res →
  h_original h = Resolved res
  ∧ h_resumed h = true
  ∧ (h_load h = true → settled (h_phrases h) = true).
Proof.
  intros Hn Hres. destruct (waited_run evs n h Hn) as [Hfresh Hload].
  split_and!.
  - destruct (result_follows_original B evs n h Hn); congruence.
  - destruct (h_resumed h); [done|]. rewrite Hfresh in Hres; done.
  - by apply (Hload res).
Qed.

End HandoffMore.

(** The tick of [TickScenario.two_hooks], then the callback of the first
    hook runs: the committed [es] is the locale both hooks asked for. *)
Lemma commit_is_requested_witness :
  ∃ i, Handoff.Invoke i ∈ TickScenario.two_hooks ++ [Handoff.React 0]
       ∧ Handoff.requested_locale i = Some "es" ∧ "es" ≠ "".
Proof.
  apply (commit_is_requested TickScenario.whole
           (TickScenario.two_hooks ++ [Handoff.React 0]) "es").
  vm_compute. apply list_elem_of_here.
Defined.

(** The hook of [TickScenario.load_failed] resumes: it returns [10], the
    original's value, after its load was rejected. *)
Lemma hook_returns_after_load_witness :
  ∃ h, Handoff.hooks
         (Handoff.run TickScenario.whole
            (TickScenario.load_failed ++ [Handoff.Resume 0])) !! 0 = Some h
       ∧ Handoff.h_result h = Resolved 10
       ∧ Handoff.h_original h = Resolved 10
       ∧ Handoff.h_resumed h = true
       ∧ settled (Handoff.h_phrases h) = true.
Proof.
  exists {| Handoff.h_locale := Some "es"; Handoff.h_load := true;
            Handoff.h_original := Resolved 10;
            Handoff.h_phrases :=
              Rejected (new_Error "Failed to load phrases");
            Handoff.h_resumed := true; Handoff.h_then := Some "es";
            Handoff.h_result := Resolved 10 |}.
  destruct (hook_returns_after_load TickScenario.whole
              (TickScenario.load_failed ++ [Handoff.Resume 0]) 0
              {| Handoff.h_locale := Some "es"; Handoff.h_load := true;
                 Handoff.h_original := Resolved 10;
                 Handoff.h_phrases :=
                   Rejected (new_Error "Failed to load phrases");
                 Handoff.h_resumed := true; Handoff.h_then := Some "es";
                 Handoff.h_result := Resolved 10 |}
              10 eq_refl eq_refl) as (Horiginal & Hresumed & Hload).
  split; [reflexivity|]. split; [reflexivity|]. split; [exact Horiginal|].
  split; [exact Hresumed | exact (Hload eq_refl)].
Defined.

(** ** [load]: how many GETs *)

Section LoaderMore.
Import LoaderBudget.
Context `{!Realm}.

Lemma awaits_split p (ks : list Cont) :
  length (filter (fun k => awaits p k = false) ks)
  + length (filter (fun k => awaits p k = true) ks)
  = length ks.
Proof.
  induction ks as [|k ks IH]; [done|].
  rewrite !filter_cons. destruct (awaits p k); repeat case_decide; cbn; lia.
Qed.

(** A resumed call makes at most one phrase promise, and issues a GET
    exactly when it makes one. *)
Lemma resume_counts k st :
  waiting (resume k st) = waiting st
  ∧ length (calls (resume k st)) = length (calls st)
  ∧ ∃ n, n ≤ 1
         ∧ length (phrase_jobs (resume k st)) = length (phrase_jobs st) + n
         ∧ length (gets (resume k st)) = length (gets st) + n.
Proof.
  assert (∀ req,
    waiting (start_phrases_with k req st) = waiting st
    ∧ length (calls (start_phrases_with k req st)) = length (calls st)
    ∧ ∃ n, n ≤ 1
           ∧ length (phrase_jobs (start_phrases_with k req st))
             = length (phrase_jobs st) + n
           ∧ length (gets (start_phrases_with k req st))
             = length (gets st) + n) as Hstart.
  { intros req. cbn. rewrite length_insert, !length_app. cbn.
    split_and!; try done. exists 1. done. }
  assert (∀ f, (∀ cs, length (f cs) = length cs) →
    waiting (with_calls f st) = waiting st
    ∧ length (calls (with_calls f st)) = length (calls st)
    ∧ ∃ n, n ≤ 1
           ∧ length (phrase_jobs (with_calls f st))
             = length (phrase_jobs st) + n
           ∧ length (gets (with_calls f st)) = length (gets st) + n)
    as Hcalls.
  { intros f Hf. cbn. split_and!; try done. exists 0. split_and!; lia. }
  assert (waiting st = waiting st
          ∧ length (calls st) = length (calls st)
          ∧ ∃ n, n ≤ 1
                 ∧ length (phrase_jobs st) = length (phrase_jobs st) + n
                 ∧ length (gets st) = length (gets st) + n) as Hsame.
  { split_and!; try done. exists 0. split_and!; lia. }
  unfold resume. destruct (k_inherited k).
  - unfold resume_member. cbn zeta.
    destruct (read_member (locale (k_args k)) (namespace (k_args k)));
      [apply Hcalls; intros cs; apply length_insert ..| apply Hstart].
  - destruct (index_state st (k_index k)) as [[|index|e]|];
      [exact Hsame| |..].
    + unfold resume_index. cbn zeta.
      destruct (negb (truthy_at index (namespace (k_args k))));
        [apply Hcalls; intros cs; apply length_insert | apply Hstart].
    + apply Hcalls. intros cs. apply length_insert.
    + exact Hsame.
Qed.

Lemma Budget_step st ev : Budget st → Budget (Loader.step st ev).
Proof.
  intros [B1 B2 B3]. destruct ev as [a | p r | q r |]; cbn.
  - unfold load. cbn zeta.
    destruct (phrases st !! key (locale a) (namespace a)).
    { split; cbn; rewrite ?length_app; cbn; lia. }
    destruct (negb (truthy_at (manifest a) (locale a))).
    { split; cbn; rewrite ?length_app; cbn; lia. }
    destruct (indexes st !! locale a); unfold await; cbn.
    + destruct (match index_state st n with
                | Some p => settled p | None => false end);
        split; cbn; rewrite ?length_app; cbn; lia.
    + destruct (inherited (locale a)); cbn.
      * split; cbn; rewrite ?length_app; cbn; lia.
      * match goal with |- context [if ?c then _ else _] => destruct c end;
          split; cbn; rewrite ?length_app; cbn; lia.
  - unfold respond_index. destruct (index_jobs st !! p) as [j|]; [|done].
    destruct (settled (i_state j)); [done|].
    pose proof (awaits_split p (waiting st)) as Hsplit.
    destruct (index_try r); split; cbn;
      rewrite ?length_app, ?length_alter; lia.
  - unfold respond_phrases. destruct (phrase_jobs st !! q) as [j|]; [|done].
    destruct (settled (p_state j)); [done|].
    destruct (phrase_try r); split; cbn; rewrite ?length_alter; lia.
  - destruct (microtasks st) as [|k rest] eqn:Hq;
      [split; rewrite ?Hq; cbn in *; lia|].
    destruct (resume_frame k (pop st)) as (F1 & _ & F3 & _).
    destruct (resume_counts k (pop st)) as (C1 & C2 & n & Hn & C3 & C4).
    cbn in *. rewrite Hq in *. cbn in *.
    split; rewrite ?F1, ?F3, ?C1, ?C2, ?C3, ?C4; lia.
Qed.

Lemma calls_step st ev :
  length (calls (Loader.step st ev))
  = length (calls st) + (if is_call ev then 1 else 0).
Proof.
  destruct ev as [a | p r | q r |]; cbn.
  - unfold load. cbn zeta.
    destruct (phrases st !! key (locale a) (namespace a));
      [cbn; by rewrite length_app|].
    destruct (negb (truthy_at (manifest a) (locale a)));
      [cbn; by rewrite length_app|].
    destruct (indexes st !! locale a); [cbn; by rewrite length_app|].
    destruct (inherited (locale a)); cbn; by rewrite length_app.
  - unfold respond_index. destruct (index_jobs st !! p) as [j|]; [|lia].
    destruct (settled (i_state j)); [lia|].
    destruct (index_try r); cbn; lia.
  - unfold respond_phrases. destruct (phrase_jobs st !! q) as [j|]; [|lia].
    destruct (settled (p_state j)); [lia|].
    destruct (phrase_try r); cbn; lia.
  - destruct (microtasks st) as [|k rest]; [lia|].
    destruct (resume_frame k (pop st)) as (_ & _ & _ & -> & _). cbn. lia.
Qed.

(** X8: [load] never issues more than two GETs per call, one for the index
    and one for the phrase set: in every reachable state there are at most
    as many index GETs as calls, at most as many phrase GETs as calls that
    are no longer suspended, nothing else was fetched, and the calls are
    the [Call] events. *)
Theorem at_most_two_gets_per_call (evs : list Event) :
  length (index_gets (run evs)) ≤ length (calls (run evs))
  ∧ length (phrase_gets (run evs))
    + length (waiting (run evs)) + length (microtasks (run evs))
    ≤ length (calls (run evs))
  ∧ length (gets (run evs))
    = length (index_gets (run evs)) + length (phrase_gets (run evs))
  ∧ length (calls (run evs)) = length (filter (fun ev => is_call ev = true) evs)
  ∧ length (gets (run evs))
    ≤ 2 * length (filter (fun ev => is_call ev = true) evs).
Proof.
  assert (Budget (run evs)
          ∧ length (calls (run evs))
            = length (filter (fun ev => is_call ev = true) evs)) as [[B1 B2 B3] Hc].
  { induction evs as [|ev evs [IHB IHc]] using rev_ind.
    - split; [split; cbn; lia | done].
    - unfold run, run_from in *. rewrite foldl_app. cbn [foldl].
      split; [by apply Budget_step|].
      rewrite calls_step, IHc, filter_app, length_app, filter_cons, filter_nil.
      destruct (is_call ev); case_decide; cbn; lia. }
  unfold index_gets, phrase_gets. rewrite !length_fmap. lia.
Qed.

(** ** [load]: what changes the caches *)

(** X9: cache entries change in two ways only.  A call stores a new index
    promise under its own locale when the locale had none, and a resumed
    call stores a new phrase promise under its own key; a GET that failed
    removes the entry of its own locale or key.  No response adds or
    replaces an entry, and a call never touches the phrase table. *)
Theorem caches_change_at_own_key (st : State) (ev : Event) :
  (∀ loc, indexes (Loader.step st ev) !! loc ≠ indexes st !! loc →
     (∃ a, ev = Call a ∧ locale a = loc ∧ indexes st !! loc = None
           ∧ indexes (Loader.step st ev) !! loc
             = Some (length (index_jobs st)))
     ∨ (∃ p r j err, ev = IndexResponse p r ∧ index_jobs st !! p = Some j
           ∧ i_locale j = loc ∧ index_try r = inl err
           ∧ indexes (Loader.step st ev) !! loc = None))
  ∧ (∀ id, phrases (Loader.step st ev) !! id ≠ phrases st !! id →
     (∃ k, ev = Microtask ∧ head (microtasks st) = Some k
           ∧ key (locale (k_args k)) (namespace (k_args k)) = id
           ∧ phrases (Loader.step st ev) !! id
             = Some (length (phrase_jobs st)))
     ∨ (∃ q r j err, ev = PhraseResponse q r ∧ phrase_jobs st !! q = Some j
           ∧ key (p_locale j) (p_namespace j) = id ∧ phrase_try r = inl err
           ∧ phrases (Loader.step st ev) !! id = None)).
Proof.
  destruct ev as [a | p r | q r |]; cbn.
  - unfold load. cbn zeta.
    destruct (phrases st !! key (locale a) (namespace a)); [by split|].
    destruct (negb (truthy_at (manifest a) (locale a))); [by split|].
    destruct (indexes st !! locale a) as [p|] eqn:Hi; [by split|].
    destruct (inherited (locale a)); [by split|].
    split; cbn; [|done]. intros loc Hne. left. exists a.
    destruct (decide (locale a = loc)) as [<-|Hloc].
    + by rewrite lookup_insert_eq.
    + by rewrite lookup_insert_ne in Hne.
  - unfold respond_index. destruct (index_jobs st !! p) as [j|] eqn:Hj;
      [|by split].
    destruct (settled (i_state j)); [by split|].
    destruct (index_try r) as [err|index] eqn:Hr; [|by split].
    split; cbn; [|done]. intros loc Hne. right. exists p, r, j, err.
    destruct (decide (i_locale j = loc)) as [<-|Hloc].
    + by rewrite lookup_delete_eq.
    + by rewrite lookup_delete_ne in Hne.
  - unfold respond_phrases. destruct (phrase_jobs st !! q) as [j|] eqn:Hj;
      [|by split].
    destruct (settled (p_state j)); [by split|].
    destruct (phrase_try r) as [err|v] eqn:Hr; [|by split].
    split; cbn; [done|]. intros id Hne. right. exists q, r, j, err.
    destruct (decide (key (p_locale j) (p_namespace j) = id)) as [<-|Hid].
    + by rewrite lookup_delete_eq.
    + by rewrite lookup_delete_ne in Hne.
  - destruct (microtasks st) as [|k rest] eqn:Hq; [by split|].
    assert (∀ req,
      (∀ loc, indexes (start_phrases_with k req (pop st)) !! loc
              ≠ indexes st !! loc → False)
      ∧ ∀ id, phrases (start_phrases_with k req (pop st)) !! id
              ≠ phrases st !! id →
          key (locale (k_args k)) (namespace (k_args k)) = id
          ∧ phrases (start_phrases_with k req (pop st)) !! id
            = Some (length (phrase_jobs st))) as Hstart.
    { intros req. split; cbn; [done|]. intros id Hne.
      destruct (decide (key (locale (k_args k)) (namespace (k_args k)) = id))
        as [<-|Hid].
      - by rewrite lookup_insert_eq.
      - by rewrite lookup_insert_ne in Hne. }
    unfold resume. destruct (k_inherited k).
    + unfold resume_member. cbn zeta.
      destruct (read_member (locale (k_args k)) (namespace (k_args k)));
        [by split | by split |].
      destruct (Hstart (request_for (k_args k) text)) as [Hi Hp].
      split; [intros loc Hne; by destruct (Hi loc)|].
      intros id Hne. left. exists k. destruct (Hp id Hne). done.
    + unfold index_state. cbn.
      destruct (i_state <$> index_jobs st !! k_index k) as [[|index|e]|];
        [by split | | by split | by split].
      unfold resume_index. cbn zeta.
      destruct (negb (truthy_at index (namespace (k_args k)))); [by split|].
      destruct (Hstart (phrase_request (k_args k) index)) as [Hi Hp].
      split; [intros loc Hne; by destruct (Hi loc)|].
      intros id Hne. left. exists k. destruct (Hp id Hne). done.
Qed.

(** The ways the phrase executor fails. *)
Lemma phrase_try_resolves r v :
  phrase_try r = inr v ↔
  ∃ status, r = FetchResponds status (BodyJson v)
            ∧ status_is_2 status = true ∧ isRecord v = true.
Proof.
  unfold phrase_try.
  destruct r as [e | status [e | v']]; [| destruct (status_is_2 status) eqn:Hs; cbn ..];
    try destruct (isRecord v') eqn:Hv; cbn;
    (split; [intros ?; simplify_eq; eauto | intros (? & ? & ? & ?); simplify_eq; try done; congruence]).
Qed.

Lemma index_try_resolves r index :
  index_try r = inr index ↔
  ∃ status v, r = FetchResponds status (BodyJson v)
              ∧ status_is_2 status = true
              ∧ isRecordOfStrings v = Some index.
Proof.
  unfold index_try.
  destruct r as [e | status [e | v']]; [| destruct (status_is_2 status) eqn:Hs; cbn ..];
    try destruct (isRecordOfStrings v') eqn:Hv; cbn;
    (split; [intros ?; simplify_eq; eauto | intros (? & ? & ? & ? & ?); simplify_eq; try done; congruence]).
Qed.

(** X7: a GET resolves its promise exactly when the response has a status
    that starts with 2 and a JSON body of the right shape (an object for a
    phrase set, a record of strings for an index).  A phrase GET that
    resolves leaves both caches and the GETs as they are, and every call
    that returned its promise settles to the body. *)
Theorem get_resolves_on_2xx_json (st : State) (q : nat) (r : Response) :
  (∀ v, phrase_try r = inr v ↔
        ∃ status, r = FetchResponds status (BodyJson v)
                  ∧ status_is_2 status = true ∧ isRecord v = true)
  ∧ (∀ index, index_try r = inr index ↔
        ∃ status v, r = FetchResponds status (BodyJson v)
                    ∧ status_is_2 status = true
                    ∧ isRecordOfStrings v = Some index)
  ∧ (∀ j v, phrase_jobs st !! q = Some j → p_state j = Pending →
            phrase_try r = inr v →
            phrases (respond_phrases q r st) = phrases st
            ∧ indexes (respond_phrases q r st) = indexes st
            ∧ gets (respond_phrases q r st) = gets st
            ∧ ∀ c, calls st !! c = Some (Returns q) →
                   result (respond_phrases q r st) c = Resolved v).
Proof.
  split_and!; [apply phrase_try_resolves | apply index_try_resolves |].
  intros j v Hj Hpend Hr. unfold respond_phrases. rewrite Hj, Hpend, Hr. cbn.
  split_and!; try done. intros c Hc. unfold result, phrase_state. cbn.
  by rewrite Hc, list_lookup_alter_eq, Hj.
Qed.

End LoaderMore.

(** ** [loadPhrases] and [setup]: several namespaces of one locale *)

Section Batch.
Import Provider.
Context `{!Realm}.
Variable loc : string.
Variable index : gmap string string.
Local Abbreviation fresh_call := (Provider.fresh_call loc).

Lemma load_waits a st p :
  fresh_call st a → indexes st !! loc = Some p →
  index_state st p = Some Pending →
  load a st
  = {| indexes := indexes st; phrases := phrases st;
       index_jobs := index_jobs st; phrase_jobs := phrase_jobs st;
       gets := gets st;
       waiting := waiting st
                  ++ [{| k_call := length (calls st); k_index := p;
                         k_inherited := false; k_args := a |}];
       microtasks := microtasks st; calls := calls st ++ [Suspended] |}.
Proof.
  intros (Hl & Hm & Hp) Hi Hs. unfold load. cbn zeta.
  rewrite Hl, Hp, Hm, Hi. cbn. unfold await. cbn. by rewrite Hs.
Qed.

(** Calls that find the index of the locale pending only queue up behind
    it. *)
Lemma start_loads_wait (args : list Args) : ∀ st p,
  Forall (fresh_call st) args → indexes st !! loc = Some p →
  index_state st p = Some Pending →
  indexes (Provider.start_loads args st) = indexes st
  ∧ phrases (Provider.start_loads args st) = phrases st
  ∧ index_jobs (Provider.start_loads args st) = index_jobs st
  ∧ phrase_jobs (Provider.start_loads args st) = phrase_jobs st
  ∧ gets (Provider.start_loads args st) = gets st
  ∧ microtasks (Provider.start_loads args st) = microtasks st
  ∧ ∃ ks, waiting (Provider.start_loads args st) = waiting st ++ ks
          ∧ k_args <$> ks = args
          ∧ Forall (fun k => k_index k = p) ks
          ∧ Forall (fun k => k_inherited k = false) ks.
Proof.
  induction args as [|a args IH]; intros st p Hall Hi Hs.
  { split_and!; try done. exists []. by rewrite app_nil_r. }
  apply Forall_cons in Hall as [Ha Hall].
  unfold Provider.start_loads. cbn [foldl].
  rewrite (load_waits a st p Ha Hi Hs).
  match goal with |- context [foldl _ ?s args] => set (st1 := s) end.
  destruct (IH st1 p) as (E1 & E2 & E3 & E4 & E5 & E6 & ks & Hw & Hk & Hp & Hn);
    [done | done | done |].
  fold (Provider.start_loads args st1).
  rewrite E1, E2, E3, E4, E5, E6. split_and!; try done.
  exists ({| k_call := length (calls st); k_index := p;
             k_inherited := false; k_args := a |} :: ks).
  rewrite Hw. cbn. rewrite <- app_assoc, Hk. split_and!; try done.
  - by apply Forall_cons.
  - by apply Forall_cons.
Qed.

Lemma resume_gets k st :
  k_inherited k = false →
  index_state st (k_index k) = Some (Resolved index) →
  gets (resume k st)
  = gets st ++ (if truthy_at index (namespace (k_args k))
                then [phrase_request (k_args k) index] else []).
Proof.
  intros Hinh Hs. unfold resume, resume_index. cbn zeta. rewrite Hinh, Hs.
  destruct (truthy_at index (namespace (k_args k))); cbn; [done|].
  by rewrite app_nil_r.
Qed.

(** Draining a queue of calls that all await the resolved index [p]: one
    phrase GET for each call whose namespace the index lists, in order. *)
Lemma drain_gets p (ks : list Cont) : ∀ st,
  microtasks st = ks → Forall (fun k => k_index k = p) ks →
  Forall (fun k => k_inherited k = false) ks →
  index_state st p = Some (Resolved index) →
  gets (drain st)
  = gets st
    ++ ((fun a => phrase_request a index)
          <$> filter (fun a => truthy_at index (namespace a) = true)
                (k_args <$> ks)).
Proof.
  induction ks as [|k ks IH]; intros st Hq Hall Hown Hs.
  { unfold drain. rewrite Hq. cbn. by rewrite app_nil_r. }
  apply Forall_cons in Hall as [Hk Hall].
  apply Forall_cons in Hown as [Hn Hown].
  unfold drain. rewrite Hq. cbn [length replicate run_from foldl Loader.step].
  rewrite Hq.
  destruct (resume_frame k (pop st)) as (F1 & F2 & F3 & _).
  assert (microtasks (resume k (pop st)) = ks) as Hq'.
  { rewrite F3. cbn. by rewrite Hq. }
  specialize (IH (resume k (pop st)) Hq' Hall Hown).
  unfold drain in IH. rewrite Hq' in IH. unfold run_from in IH.
  rewrite IH.
  2:{ unfold index_state. rewrite F1. exact Hs. }
  rewrite resume_gets; [|done | by rewrite Hk]. cbn [pop gets].
  rewrite fmap_cons, filter_cons.
  destruct (truthy_at index (namespace (k_args k))); case_decide; try done.
  - by rewrite <- app_assoc.
  - by rewrite app_nil_r.
Qed.

End Batch.

Section BatchGets.
Context `{!Realm}.

(** A call that finds no index for its locale makes the index promise,
    issues its GET and waits for it. *)
Lemma load_starts_index a st :
  phrases st !! key (locale a) (namespace a) = None →
  truthy_at (manifest a) (locale a) = true →
  indexes st !! locale a = None →
  inherited (locale a) = false →
  load a st
  = {| indexes := <[locale a := length (index_jobs st)]> (indexes st);
       phrases := phrases st;
       index_jobs := index_jobs st
                     ++ [{| i_state := Pending; i_request := index_request a;
                            i_locale := locale a |}];
       phrase_jobs := phrase_jobs st;
       gets := gets st ++ [index_request a];
       waiting := waiting st
                  ++ [{| k_call := length (calls st);
                         k_index := length (index_jobs st);
                         k_inherited := false; k_args := a |}];
       microtasks := microtasks st; calls := calls st ++ [Suspended] |}.
Proof.
  intros Hp Hm Hi Hin. unfold load. cbn zeta. rewrite Hp, Hm, Hi, Hin. cbn.
  unfold await, index_state. cbn.
  by rewrite lookup_app_r, Nat.sub_diag.
Qed.

Lemma filter_awaits_all p (ks : list Cont) :
  Forall (fun k => k_index k = p) ks →
  filter (fun k => awaits p k = true) ks = ks.
Proof.
  induction 1 as [|k ks Hk Hall IH]; [done|].
  rewrite filter_cons, IH. unfold awaits.
  rewrite bool_decide_eq_true_2 by done. by case_decide.
Qed.

Lemma filter_awaits_none p (ks : list Cont) :
  Forall (fun k => k_index k ≠ p) ks →
  filter (fun k => awaits p k = true) ks = [].
Proof.
  induction 1 as [|k ks Hk Hall IH]; [done|].
  rewrite filter_cons, IH. unfold awaits.
  rewrite bool_decide_eq_false_2 by done. by case_decide.
Qed.

(** The GETs of a batch of calls for one locale, started where the locale
    has no index. *)
Lemma batch_gets (evs : list Event) (a : Args)
    (args : list Args) (r : Response) (index : gmap string string) :
  microtasks (run evs) = [] →
  indexes (run evs) !! locale a = None →
  inherited (locale a) = false →
  Forall (Provider.fresh_call (locale a) (run evs)) (a :: args) →
  index_try r = inr index →
  gets (Provider.start_loads (a :: args) (run evs))
  = gets (run evs) ++ [index_request a]
  ∧ index_gets (Provider.start_loads (a :: args) (run evs))
    = index_gets (run evs) ++ [index_request a]
  ∧ gets (drain (respond_index (length (index_jobs (run evs))) r
                   (Provider.start_loads (a :: args) (run evs))))
    = gets (run evs) ++ [index_request a]
      ++ ((fun a' => phrase_request a' index)
            <$> filter (fun a' => truthy_at index (namespace a') = true)
                  (a :: args)).
Proof.
  intros Hq Hi Hin Hall Hr. pose proof (Inv_run evs) as HI.
  set (st := run evs) in *. set (p := length (index_jobs st)).
  apply Forall_cons in Hall as [(_ & Hm & Hp) Hall].
  pose proof (load_starts_index a st Hp Hm Hi Hin) as Hload.
  change (Provider.start_loads (a :: args) st)
    with (Provider.start_loads args (load a st)).
  set (k0 := {| k_call := length (calls st); k_index := p;
                k_inherited := false; k_args := a |}).
  fold p in Hload. fold k0 in Hload.
  assert (Forall (Provider.fresh_call (locale a) (load a st)) args) as Hall1.
  { eapply Forall_impl; [exact Hall|]. intros a' (H1 & H2 & H3).
    split_and!; try done. by rewrite Hload. }
  destruct (start_loads_wait (locale a) args (load a st) p Hall1)
    as (E1 & E2 & E3 & E4 & E5 & E6 & ks & Hw & Hk & Hkp & Hkn).
  { rewrite Hload. cbn. apply lookup_insert_eq. }
  { rewrite Hload. unfold index_state. cbn.
    by rewrite lookup_app_r, Nat.sub_diag. }
  set (st2 := Provider.start_loads args (load a st)) in *.
  assert (gets st2 = gets st ++ [index_request a]) as Hg2
    by (by rewrite E5, Hload).
  split_and!.
  - done.
  - unfold index_gets. rewrite E3, Hload. cbn. by rewrite fmap_app.
  - assert (index_jobs st2 !! p
            = Some {| i_state := Pending; i_request := index_request a;
                      i_locale := locale a |}) as Hj.
    { rewrite E3, Hload. cbn. by rewrite lookup_app_r, Nat.sub_diag. }
    set (st3 := respond_index p r st2).
    assert (st3 = settle_index p (Resolved index) (indexes st2) st2) as Hst3.
    { unfold st3, respond_index. by rewrite Hj, Hr. }
    assert (waiting st2 = waiting st ++ k0 :: ks) as Hw2.
    { rewrite Hw, Hload. cbn. by rewrite <- app_assoc. }
    assert (microtasks st3 = k0 :: ks) as Hq3.
    { rewrite Hst3. cbn. rewrite E6, Hload. cbn. rewrite Hq, Hw2. cbn.
      rewrite filter_app, filter_awaits_none, (filter_awaits_all p (k0 :: ks)).
      - done.
      - by apply Forall_cons.
      - apply Forall_forall. intros k Hk' Heq.
        destruct (inv_cont st HI k) as [_ Hcont].
        { apply elem_of_app. by left. }
        rewrite (inv_waiting st HI k Hk') in Hcont.
        destruct Hcont as (s & Hs' & _).
        apply index_state_Some in Hs' as (j & Hj' & _).
        apply lookup_lt_Some in Hj'. unfold p in Heq. lia. }
    rewrite (drain_gets index p (k0 :: ks) st3 Hq3).
    + rewrite Hst3. cbn [settle_index gets]. rewrite Hg2, <- app_assoc.
      cbn [fmap list_fmap]. by rewrite Hk.
    + by apply Forall_cons.
    + by apply Forall_cons.
    + rewrite Hst3. unfold index_state. cbn.
      by rewrite list_lookup_alter_eq, Hj.
Qed.

(** X6: the calls of one [loadPhrases] (or of [setup]) for several
    namespaces of one locale share one index GET.  Started in a reachable
    state with an empty queue, where [indexes[locale]] is falsy (the locale
    has no index and is not the name of an inherited member) and the keys
    have no phrase set cached, the calls issue the index GET of the first
    call and nothing else; once that GET brings the index and the queue has
    run, one phrase GET has been issued for every requested namespace for
    which [index[namespace]] is truthy, in the order requested, a namespace
    requested twice being fetched twice. *)
Theorem namespaces_share_index_get (evs : list Event) (a : Args)
    (args : list Args) (r : Response) (index : gmap string string) :
  microtasks (run evs) = [] →
  indexes (run evs) !! locale a = None →
  inherited (locale a) = false →
  Forall (Provider.fresh_call (locale a) (run evs)) (a :: args) →
  index_try r = inr index →
  gets (Provider.start_loads (a :: args) (run evs))
  = gets (run evs) ++ [index_request a]
  ∧ index_gets (Provider.start_loads (a :: args) (run evs))
    = index_gets (run evs) ++ [index_request a]
  ∧ gets (drain (respond_index (length (index_jobs (run evs))) r
                   (Provider.start_loads (a :: args) (run evs))))
    = gets (run evs) ++ [index_request a]
      ++ ((fun a' => phrase_request a' index)
            <$> filter (fun a' => truthy_at index (namespace a') = true)
                  (a :: args)).
Proof. apply batch_gets. Qed.

(** ** [setup]: the GETs at startup *)






End BatchGets.

(** ** [load]: more samples *)

Section LoaderSamples.
#[local] Existing Instance Scenario.realm.

(** The index GET of [en] answers 404 while a call waits for it: the entry
    of [en] goes, as the entry of the locale of that GET. *)
Lemma caches_change_at_own_key_witness :
  (∃ a, IndexResponse 0 Scenario.not_found = Call a ∧ locale a = "en"
        ∧ indexes (run [Call (Scenario.call "en" "common" None)]) !! "en"
          = None
        ∧ indexes
            (Loader.step (run [Call (Scenario.call "en" "common" None)])
               (IndexResponse 0 Scenario.not_found)) !! "en"
          = Some (length
                    (index_jobs
                       (run [Call (Scenario.call "en" "common" None)]))))
  ∨ (∃ p r j err,
       IndexResponse 0 Scenario.not_found = IndexResponse p r
       ∧ index_jobs (run [Call (Scenario.call "en" "common" None)]) !! p
         = Some j
       ∧ i_locale j = "en" ∧ index_try r = inl err
       ∧ indexes
           (Loader.step (run [Call (Scenario.call "en" "common" None)])
              (IndexResponse 0 Scenario.not_found)) !! "en"
         = None).
Proof.
  apply (proj1 (caches_change_at_own_key
                  (run [Call (Scenario.call "en" "common" None)])
                  (IndexResponse 0 Scenario.not_found)) "en").
  vm_compute. discriminate.
Defined.

(** The phrase GET of [en]/['common'] answers 200 with a phrase set: the
    call that returned its promise gets the phrase set, the caches stay. *)
Lemma get_resolves_on_2xx_json_witness :
  phrases
    (respond_phrases 0 (Scenario.ok Scenario.phrases_en)
       (run [Call (Scenario.call "en" "common" None);
             IndexResponse 0 (Scenario.ok Scenario.index_en); Microtask]))
  = phrases
      (run [Call (Scenario.call "en" "common" None);
            IndexResponse 0 (Scenario.ok Scenario.index_en); Microtask])
  ∧ result
      (respond_phrases 0 (Scenario.ok Scenario.phrases_en)
         (run [Call (Scenario.call "en" "common" None);
               IndexResponse 0 (Scenario.ok Scenario.index_en); Microtask]))
      0
    = Resolved Scenario.phrases_en.
Proof.
  destruct (proj2 (proj2 (get_resolves_on_2xx_json
                            (run [Call (Scenario.call "en" "common" None);
                                  IndexResponse 0
                                    (Scenario.ok Scenario.index_en);
                                  Microtask])
                            0 (Scenario.ok Scenario.phrases_en)))
              _ Scenario.phrases_en eq_refl eq_refl eq_refl)
    as (Hphrases & _ & _ & Hresult).
  split; [exact Hphrases | exact (Hresult 0 eq_refl)].
Defined.

(** [loadPhrases(['common', 'admin', 'constructor'], signal, 'en')] with
    empty caches; the index of [en] lists ['common'] only: one index GET,
    then a phrase GET for ['common'] and one for ['constructor'], which the
    index inherits, under the text of the inherited function. *)
Lemma namespaces_share_index_get_witness :
  gets (Provider.start_loads
          (Provider.loadPhrases_calls Scenario.manifest_en "/i18n" "es"
             (Handoff.Many ["common"; "admin"; "constructor"]) 1 (Some "en"))
          (run []))
  = [{| url := "/i18n/en/idx-en.json"; req_signal := Some 1 |}]
  ∧ gets (drain (respond_index 0 (Scenario.ok Scenario.index_en)
                   (Provider.start_loads
                      (Provider.loadPhrases_calls Scenario.manifest_en
                         "/i18n" "es"
                         (Handoff.Many ["common"; "admin"; "constructor"]) 1
                         (Some "en"))
                      (run []))))
    = [{| url := "/i18n/en/idx-en.json"; req_signal := Some 1 |};
       {| url := "/i18n/en/common-en.json"; req_signal := Some 1 |};
       {| url := "/i18n/en/function Object() { [native code] }";
          req_signal := Some 1 |}].
Proof.
  destruct (namespaces_share_index_get []
              (Scenario.call "en" "common" (Some 1))
              [Scenario.call "en" "admin" (Some 1);
               Scenario.call "en" "constructor" (Some 1)]
              (Scenario.ok Scenario.index_en)
              {[ "common" := "common-en.json" ]})
    as (Hstart & _ & Hdone).
  - reflexivity.
  - reflexivity.
  - reflexivity.
  - repeat constructor.
  - reflexivity.
  - split; [exact Hstart | exact Hdone].
Defined.


End LoaderSamples.

(** ** The store after [loadPhrases] and [setup] *)

Lemma fromEntries_snoc {V} (l : list (string * V)) k v :
  fromEntries (l ++ [(k, v)]) = <[k := v]> (fromEntries l).
Proof. unfold fromEntries. by rewrite foldl_app. Qed.

Lemma fromEntries_None {V} (l : list (string * V)) k :
  k ∉ l.*1 → fromEntries l !! k = None.
Proof.
  induction l as [|[k' v'] l IH] using rev_ind; [done|].
  rewrite fmap_app, fromEntries_snoc. cbn.
  intros Hk. rewrite lookup_insert_ne.
  - apply IH. intros Hin. apply Hk, elem_of_app. by left.
  - intros ->. apply Hk, elem_of_app. right. by apply list_elem_of_singleton.
Qed.

Lemma fromEntries_is_Some {V} (l : list (string * V)) k :
  is_Some (fromEntries l !! k) ↔ k ∈ l.*1.
Proof.
  split.
  - intros Hs. destruct (decide (k ∈ l.*1)) as [|Hn]; [done|].
    rewrite (fromEntries_None l k Hn) in Hs. by destruct Hs.
  - induction l as [|[k' v'] l IH] using rev_ind.
    { intros Hk. by apply not_elem_of_nil in Hk. }
    rewrite fmap_app, fromEntries_snoc. cbn.
    intros [Hk | ->%list_elem_of_singleton]%elem_of_app.
    + destruct (decide (k' = k)) as [->|Hne].
      * rewrite lookup_insert_eq. by eexists.
      * rewrite lookup_insert_ne by done. by apply IH.
    + rewrite lookup_insert_eq. by eexists.
Qed.

Lemma fromEntries_NoDup {V} (l : list (string * V)) k v :
  NoDup l.*1 → (k, v) ∈ l → fromEntries l !! k = Some v.
Proof.
  induction l as [|[k' v'] l IH] using rev_ind.
  { intros _ Hk. by apply not_elem_of_nil in Hk. }
  rewrite fmap_app, fromEntries_snoc. cbn.
  intros (Hnd & Hnot & _)%NoDup_app
         [Hk | [= -> ->]%list_elem_of_singleton]%elem_of_app.
  - rewrite lookup_insert_ne; [by apply IH|].
    intros ->. apply (Hnot k); [|by apply list_elem_of_singleton].
    by apply (list_elem_of_fmap_2 fst) in Hk.
  - apply lookup_insert_eq.
Qed.

Lemma all_resolved_fmap {A} (vs : list A) :
  Provider.all_resolved (Resolved <$> vs) = Some vs.
Proof.
  unfold Provider.all_resolved. apply mapM_Some.
  induction vs; constructor; done.
Qed.

Lemma all_resolved_None {A} (ps : list (promise A)) :
  Provider.all_resolved ps = None ↔
  ∃ i p, ps !! i = Some p ∧ ∀ v, p ≠ Resolved v.
Proof.
  unfold Provider.all_resolved. rewrite mapM_None, Exists_exists. split.
  - intros (p & [i Hi]%list_elem_of_lookup_1 & Hp). exists i, p.
    split; [done|]. intros v ->. done.
  - intros (i & p & Hi & Hp). exists p.
    split; [by eapply list_elem_of_lookup_2|].
    destruct p; [done | by destruct (Hp v) | done].
Qed.

Section ProviderFacts.
Context {Polyglot : Type}.
Variable build : string → string → json → Polyglot.

Lemma entries_keys locale (nss : list string) (loaded : list json) :
  length nss = length loaded →
  ((fun l => Store.initiatePolyglot build locale l.1 l.2)
     <$> zip nss loaded).*1
  = key locale <$> nss.
Proof.
  intros Hlen. rewrite <- list_fmap_compose.
  rewrite <- (fst_zip nss loaded) at 2 by lia.
  rewrite <- list_fmap_compose. done.
Qed.

Lemma keys_NoDup locale (nss : list string) :
  NoDup nss → NoDup (key locale <$> nss).
Proof.
  apply NoDup_fmap_2_strong. intros ns ns' _ _. apply key_same_locale.
Qed.

(** X15: [loadPhrases] changes the store all at once or not at all.  While
    a load of its namespaces is pending or rejected the store is left as it
    is; once every load has resolved, a lookup under the locale it loaded
    for finds, for each of the (distinct) namespaces, the entry built from
    the phrase set loaded for it, and every key that is not one of these
    keeps what it had. *)
Theorem loadPhrases_all_or_nothing (next : option string) (locale : string)
    (nss : list string) (results : list (promise json))
    (current : gmap string Polyglot) :
  ((∃ i p, results !! i = Some p ∧ ∀ v, p ≠ Resolved v) →
   Provider.loadPhrases_settled build next locale nss results current
   = current)
  ∧ (∀ loaded, results = Resolved <$> loaded →
       length nss = length loaded → NoDup nss →
       (∀ i ns phr, nss !! i = Some ns → loaded !! i = Some phr →
          Store.usePolyglot
            (Provider.loadPhrases_settled build next locale nss results
               current)
            (Store.pick_locale next locale) (Some ns)
          = inr (build (Store.pick_locale next locale) ns phr))
       ∧ (∀ id, (∀ ns, ns ∈ nss →
                       id ≠ key (Store.pick_locale next locale) ns) →
            Provider.loadPhrases_settled build next locale nss results
              current !! id
            = current !! id)).
Proof.
  unfold Provider.loadPhrases_settled. split.
  - intros Hex. apply all_resolved_None in Hex. by rewrite Hex.
  - intros loaded -> Hlen Hnd. rewrite all_resolved_fmap.
    unfold Store.loadPhrases. set (L := Store.pick_locale next locale).
    set (entries := (fun l => Store.initiatePolyglot build L l.1 l.2)
                      <$> zip nss loaded).
    pose proof (entries_keys L nss loaded Hlen) as Hkeys. fold entries in Hkeys.
    split.
    + intros i ns phr Hns Hphr. unfold Store.usePolyglot. cbn zeta. cbn.
      erewrite merge_lookup_new; [done|].
      apply fromEntries_NoDup.
      * rewrite Hkeys. by apply keys_NoDup.
      * unfold entries.
        apply (list_elem_of_fmap_2'
                 (fun l => Store.initiatePolyglot build L l.1 l.2)
                 _ (ns, phr)); [|done].
        apply (list_elem_of_lookup_2 _ i). by apply lookup_zip_Some.
    + intros id Hid. apply merge_lookup_old, fromEntries_None.
      rewrite Hkeys. intros (ns & -> & Hns)%list_elem_of_fmap.
      by apply (Hid ns).
Qed.

(** X16: what [setup] leaves in the store.  Its initial store exists only
    when every load resolved; then [usePolyglot] under the initial locale
    finds an entry for exactly the namespaces of the route modules and
    throws the unknown-namespace error for every other namespace. *)
Theorem setup_store_has_route_namespaces (locale : string)
    (nss : list string) (results : list (promise json)) :
  length results = length nss →
  (Provider.initialStore build locale nss results = None ↔
   ∃ i p, results !! i = Some p ∧ ∀ v, p ≠ Resolved v)
  ∧ ∀ store, Provider.initialStore build locale nss results = Some store →
      ∀ ns, (ns ∈ nss →
             ∃ entry, Store.usePolyglot store locale (Some ns) = inr entry)
            ∧ (ns ∉ nss →
               Store.usePolyglot store locale (Some ns)
               = inl (Store.unknown_namespace ns locale)).
Proof.
  intros Hlen. unfold Provider.initialStore. split.
  - rewrite <- all_resolved_None.
    destruct (Provider.all_resolved results); cbn; split; done.
  - intros store Hstore.
    destruct (Provider.all_resolved results) as [loaded|] eqn:Hres; [|done].
    cbn in Hstore. injection Hstore as <-.
    assert (length nss = length loaded) as Hlen'.
    { unfold Provider.all_resolved in Hres. apply length_mapM in Hres. lia. }
    pose proof (entries_keys locale nss loaded Hlen') as Hkeys.
    intros ns. unfold Store.usePolyglot. cbn zeta. cbn. split.
    + intros Hns.
      destruct (fromEntries_is_Some
                  ((fun l => Store.initiatePolyglot build locale l.1 l.2)
                     <$> zip nss loaded) (key locale ns)) as [_ Hin].
      destruct Hin as [entry Hentry].
      { rewrite Hkeys. by apply list_elem_of_fmap_2. }
      rewrite Hentry. by exists entry.
    + intros Hns. rewrite fromEntries_None; [done|].
      rewrite Hkeys. intros (ns' & Hk & Hns')%list_elem_of_fmap.
      apply key_same_locale in Hk. by subst.
Qed.

End ProviderFacts.

(** [loadPhrases(['common', 'admin'], signal, 'es')] on a store that holds
    [en]/['common']: nothing changes while the load of ['admin'] is out;
    once both have resolved the store serves [es]/['admin'] and still
    serves [en]/['common']. *)
Lemma loadPhrases_all_or_nothing_witness :
  Provider.loadPhrases_settled (fun l ns phr => (l, ns, phr)) (Some "es") "en"
    ["common"; "admin"] [Resolved Scenario.phrases_en; Pending]
    {[ "en-common" := ("en", "common", Scenario.phrases_en) ]}
  = {[ "en-common" := ("en", "common", Scenario.phrases_en) ]}
  ∧ Store.usePolyglot
      (Provider.loadPhrases_settled (fun l ns phr => (l, ns, phr))
         (Some "es") "en" ["common"; "admin"]
         [Resolved Scenario.phrases_en; Resolved Scenario.phrases_en']
         {[ "en-common" := ("en", "common", Scenario.phrases_en) ]})
      "es" (Some "admin")
    = inr ("es", "admin", Scenario.phrases_en')
  ∧ Provider.loadPhrases_settled (fun l ns phr => (l, ns, phr))
      (Some "es") "en" ["common"; "admin"]
      [Resolved Scenario.phrases_en; Resolved Scenario.phrases_en']
      {[ "en-common" := ("en", "common", Scenario.phrases_en) ]}
    !! "en-common"
    = Some ("en", "common", Scenario.phrases_en).
Proof.
  split.
  - apply (proj1 (loadPhrases_all_or_nothing (fun l ns phr => (l, ns, phr))
                    (Some "es") "en" ["common"; "admin"]
                    [Resolved Scenario.phrases_en; Pending]
                    {[ "en-common" := ("en", "common", Scenario.phrases_en) ]})).
    exists 1, Pending. split; [reflexivity | discriminate].
  - destruct (proj2 (loadPhrases_all_or_nothing
                       (fun l ns phr => (l, ns, phr))
                       (Some "es") "en" ["common"; "admin"]
                       [Resolved Scenario.phrases_en;
                        Resolved Scenario.phrases_en']
                       {[ "en-common" :=
                            ("en", "common", Scenario.phrases_en) ]})
                [Scenario.phrases_en; Scenario.phrases_en']
                eq_refl eq_refl) as [Hnew Hold].
    + apply (bool_decide_unpack _). vm_compute. exact I.
    + split.
      * exact (Hnew 1 "admin" Scenario.phrases_en' eq_refl eq_refl).
      * apply (Hold "en-common"). intros ns Hns.
        apply elem_of_cons in Hns as [-> | Hns]; [discriminate|].
        apply elem_of_cons in Hns as [-> | Hns]; [discriminate|].
        by apply not_elem_of_nil in Hns.
Defined.

(** [setup] for the route namespaces ['common'] and ['admin'], both loaded:
    the store serves ['common'] and throws for ['checkout']. *)
Lemma setup_store_has_route_namespaces_witness :
  (∃ entry,
     Store.usePolyglot
       (default ∅
          (Provider.initialStore (fun l ns phr => (l, ns, phr)) "en"
             ["common"; "admin"]
             [Resolved Scenario.phrases_en; Resolved Scenario.phrases_en']))
       "en" (Some "common")
     = inr entry)
  ∧ Store.usePolyglot
      (default ∅
         (Provider.initialStore (fun l ns phr => (l, ns, phr)) "en"
            ["common"; "admin"]
            [Resolved Scenario.phrases_en; Resolved Scenario.phrases_en']))
      "en" (Some "checkout")
    = inl (Store.unknown_namespace "checkout" "en").
Proof.
  pose proof (proj2 (setup_store_has_route_namespaces
                       (fun l ns phr => (l, ns, phr)) "en"
                       ["common"; "admin"]
                       [Resolved Scenario.phrases_en;
                        Resolved Scenario.phrases_en']
                       eq_refl)
                _ eq_refl) as Hstore.
  split.
  - apply (proj1 (Hstore "common")). apply list_elem_of_here.
  - apply (proj2 (Hstore "checkout")).
    apply (bool_decide_unpack _). vm_compute. exact I.
Defined.
